(** * Fault containment layer: circuit breaker, retry with backoff, resource pool

    A shallow embedding of
    [experiments/five-layer-architecture/layer-3-service-isolation]:
    the [CircuitBreaker] and [ResilientServiceClient] classes of the README
    listing and the [ResourcePool] class of [resource-pool.js].

    Conventions of the embedding.
    - JavaScript counters ([failureCount], [available], [active], pool sizes,
      request totals) are integers, [Z].
    - Times and delays (values of [Date.now()], [timeout], backoff delays) are
      exact rationals, [Q]; rounding of IEEE doubles is not modelled.
    - [Date.now()] and [Math.random()] are inputs: every call of them in the
      source is a parameter of the embedded function.
    - An [async] method runs atomically up to its first suspension and again
      from the settlement of the awaited promise to its end (JavaScript is
      single threaded); overlapping calls are interleavings of such segments.
    - [throw new Error(msg)] is [Threw (Error msg)]; a value thrown by the
      caller's operation and passed on unchanged is [Threw (Raised e)].
    - [CircuitBreaker.settle], [execute] and [step] are the breaker with a
      [monitor] that returns normally, as [defaultMonitor] does;
      [execute_monitored] and [step_monitored] are the same code with a
      monitor that may throw. *)

From Stdlib Require Import ZArith QArith Qpower Qminmax Lia Lqa String List.
From Equations Require Import Equations.
From stdpp Require Import gmap strings pretty.
Import ListNotations.

Local Open Scope Z_scope.

(** ** JavaScript values shared by the three classes *)

Module Js.

(** Result of running a piece of code that may throw. *)
Inductive Outcome (A E : Type) : Type :=
| Returned (a : A)
| Threw (e : E).
Arguments Returned {A E} a.
Arguments Threw {A E} e.

(** A thrown value: an [Error] object built by the code under study, or
    whatever the caller-supplied operation threw. *)
Inductive Exn (E : Type) : Type :=
| Error (message : string)
| Raised (e : E).
Arguments Error {E} message.
Arguments Raised {E} e.

(** [v || d] on an optional number: [undefined] and [0] are falsy. *)
Definition or_defaultZ (v : option Z) (d : Z) : Z :=
  match v with
  | Some x => if x =? 0 then d else x
  | None => d
  end.

Definition or_defaultQ (v : option Q) (d : Q) : Q :=
  match v with
  | Some x => if Qeq_bool x 0 then d else x
  | None => d
  end.

(** [a < b] on numbers, as a boolean. *)
Definition Qltb (a b : Q) : bool := negb (Qle_bool b a).

(** A value together with the equation that it is the value of [x]: lets a
    loop test be matched on while its outcome stays known. *)
Definition inspect {A : Type} (x : A) : {y : A | x = y} := exist _ x eq_refl.

End Js.

(** ** CircuitBreaker *)

Module CircuitBreaker.
Import Js.

Inductive State : Set := CLOSED | OPEN | HALF_OPEN.

Record Options : Set := {
  opt_failureThreshold : option Z;
  opt_timeout : option Q
}.

Record t : Set := {
  failureThreshold : Z;
  timeout : Q;
  state : State;
  failureCount : Z;
  lastFailureTime : option Q;
  nextAttempt : Q
}.

(** What the [monitor] callback is called with. *)
Inductive MonitorEvent : Set :=
| MonSuccess
| MonFailure (count : Z) (st : State).

(** The message of the error thrown while the gate is shut. *)
Definition CircuitOpenError : string := "Circuit breaker is OPEN"%string.

(** [new CircuitBreaker(options)], constructed when the clock shows [now]. *)
Definition constructor (options : Options) (now : Q) : t :=
  {| failureThreshold := or_defaultZ (opt_failureThreshold options) 5;
     timeout := or_defaultQ (opt_timeout options) (60000 # 1);
     state := CLOSED;
     failureCount := 0;
     lastFailureTime := None;
     nextAttempt := now |}.

(** The two summands of [getBackoffDelay]; [random] is [Math.random()]. *)
Definition exponentialDelay (cb : t) : Q :=
  (timeout cb * 2 ^ Z.min (failureCount cb - failureThreshold cb) 6)%Q.

Definition jitter (cb : t) (random : Q) : Q :=
  (random * (1 # 10) * exponentialDelay cb)%Q.

Definition getBackoffDelay (cb : t) (random : Q) : Q :=
  (exponentialDelay cb + jitter cb random)%Q.

Definition onSuccess (cb : t) : t * MonitorEvent :=
  ({| failureThreshold := failureThreshold cb;
      timeout := timeout cb;
      state := CLOSED;
      failureCount := 0;
      lastFailureTime := lastFailureTime cb;
      nextAttempt := nextAttempt cb |},
   MonSuccess).

(** The clock and random readings taken inside one [onFailure]. *)
Record FailureEnv : Set := {
  at_failure : Q;   (* Date.now() stored in lastFailureTime *)
  at_open : Q;      (* Date.now() added to the backoff delay *)
  random : Q        (* Math.random() *)
}.

Definition onFailure (cb : t) (env : FailureEnv) : t * MonitorEvent :=
  let counted :=
    {| failureThreshold := failureThreshold cb;
       timeout := timeout cb;
       state := state cb;
       failureCount := failureCount cb + 1;
       lastFailureTime := Some (at_failure env);
       nextAttempt := nextAttempt cb |} in
  let cb' :=
    if failureThreshold counted <=? failureCount counted then
      {| failureThreshold := failureThreshold counted;
         timeout := timeout counted;
         state := OPEN;
         failureCount := failureCount counted;
         lastFailureTime := lastFailureTime counted;
         nextAttempt :=
           (at_open env
            + getBackoffDelay
                {| failureThreshold := failureThreshold counted;
                   timeout := timeout counted;
                   state := OPEN;
                   failureCount := failureCount counted;
                   lastFailureTime := lastFailureTime counted;
                   nextAttempt := nextAttempt counted |}
                (random env))%Q |}
    else counted in
  (cb', MonFailure (failureCount cb') (state cb')).

(** The gate at the head of [execute]: the part that runs before the
    operation is invoked. *)
Definition enter (cb : t) (now : Q) : Outcome t string :=
  match state cb with
  | OPEN =>
      if Qltb now (nextAttempt cb) then Threw CircuitOpenError
      else Returned
             {| failureThreshold := failureThreshold cb;
                timeout := timeout cb;
                state := HALF_OPEN;
                failureCount := failureCount cb;
                lastFailureTime := lastFailureTime cb;
                nextAttempt := nextAttempt cb |}
  | _ => Returned cb
  end.

Section Execute.
Context {A E : Type}.

(** One call of [execute] that runs without overlapping another: the clock
    at entry, what the operation does if it is invoked, and the readings of
    [onFailure] if it comes to that. *)
Record Call : Type := {
  at_call : Q;
  operation : Outcome A E;
  on_fail : FailureEnv
}.

(** The [try]/[catch] of [execute], from the settlement of the operation,
    with a monitor that returns (see [execute_monitored] for one that
    throws). *)
Definition settle (cb : t) (r : Outcome A E) (env : FailureEnv)
  : t * MonitorEvent * Outcome A (Exn E) :=
  match r with
  | Returned a => let '(cb', ev) := onSuccess cb in (cb', ev, Returned a)
  | Threw e => let '(cb', ev) := onFailure cb env in (cb', ev, Threw (Raised e))
  end.

Record Executed : Type := {
  after : t;
  invoked : bool;
  monitored : list MonitorEvent;
  outcome : Outcome A (Exn E)
}.

Definition execute (cb : t) (c : Call) : Executed :=
  match enter cb (at_call c) with
  | Threw msg =>
      {| after := cb; invoked := false; monitored := [];
         outcome := Threw (Error msg) |}
  | Returned passed =>
      let '(cb', ev, out) := settle passed (operation c) (on_fail c) in
      {| after := cb'; invoked := true; monitored := [ev]; outcome := out |}
  end.

(** A sequence of calls, one after the other; the number of times the
    operation was invoked is counted. *)
Record Run : Type := {
  breaker : t;
  invocations : Z;
  outcomes : list (Outcome A (Exn E))
}.

Definition run_call (r : Run) (c : Call) : Run :=
  let x := execute (breaker r) c in
  {| breaker := after x;
     invocations := if invoked x then invocations r + 1 else invocations r;
     outcomes := outcomes r ++ [outcome x] |}.

Definition run (cb : t) (calls : list Call) : Run :=
  fold_left run_call calls
    {| breaker := cb; invocations := 0; outcomes := [] |}.

Definition fails (c : Call) : Prop :=
  match operation c with Threw _ => True | Returned _ => False end.

End Execute.
Arguments Call : clear implicits.
Arguments Executed : clear implicits.
Arguments Run : clear implicits.

(** *** Overlapping calls

    Each call of [execute] is two atomic segments: the arrival (gate and
    invocation of the operation) and the settlement ([onSuccess] or
    [onFailure]).  [inFlight] counts the operations that have been invoked
    and have not settled. *)

Record World : Set := {
  cb : t;
  inFlight : nat;
  invoked_total : nat;
  rejected_total : nat;
  monitor_log : list MonitorEvent
}.

Inductive Event : Set :=
| Arrive (now : Q)
| Succeed
| Fail (env : FailureEnv).

Definition boot (options : Options) (now : Q) : World :=
  {| cb := constructor options now; inFlight := 0; invoked_total := 0;
     rejected_total := 0; monitor_log := [] |}.

(** [None]: the event cannot happen ([Succeed] and [Fail] need an operation
    in flight). *)
Definition step (w : World) (e : Event) : option World :=
  match e with
  | Arrive now =>
      match enter (cb w) now with
      | Threw _ =>
          Some {| cb := cb w; inFlight := inFlight w;
                  invoked_total := invoked_total w;
                  rejected_total := S (rejected_total w);
                  monitor_log := monitor_log w |}
      | Returned passed =>
          Some {| cb := passed; inFlight := S (inFlight w);
                  invoked_total := S (invoked_total w);
                  rejected_total := rejected_total w;
                  monitor_log := monitor_log w |}
      end
  | Succeed =>
      match inFlight w with
      | O => None
      | S n =>
          let '(cb', ev) := onSuccess (cb w) in
          Some {| cb := cb'; inFlight := n;
                  invoked_total := invoked_total w;
                  rejected_total := rejected_total w;
                  monitor_log := monitor_log w ++ [ev] |}
      end
  | Fail env =>
      match inFlight w with
      | O => None
      | S n =>
          let '(cb', ev) := onFailure (cb w) env in
          Some {| cb := cb'; inFlight := n;
                  invoked_total := invoked_total w;
                  rejected_total := rejected_total w;
                  monitor_log := monitor_log w ++ [ev] |}
      end
  end.

Fixpoint steps (w : World) (es : list Event) : option World :=
  match es with
  | [] => Some w
  | e :: es' =>
      match step w e with
      | Some w' => steps w' es'
      | None => None
      end
  end.

Inductive reachable (w0 : World) : World -> Prop :=
| reach_here : reachable w0 w0
| reach_step w e w' :
    reachable w0 w -> step w e = Some w' -> reachable w0 w'.

(** The breaker invariant. *)
Definition closed_below_threshold (b : t) : Prop :=
  state b = CLOSED -> failureCount b < failureThreshold b.

(** The threshold is positive and the invariant holds: what every step of
    [World] preserves. *)
Definition sound (w : World) : Prop :=
  0 < failureThreshold (cb w) /\ closed_below_threshold (cb w).

(** Closed exactly below the threshold, with a count that is never
    negative. *)
Definition tight (w : World) : Prop :=
  0 < failureThreshold (cb w) /\
  0 <= failureCount (cb w) /\
  (state (cb w) = CLOSED -> failureCount (cb w) < failureThreshold (cb w)) /\
  (state (cb w) <> CLOSED -> failureThreshold (cb w) <= failureCount (cb w)).

(** *** A monitor that may throw

    [onSuccess] and [onFailure] call [this.monitor] as their last statement,
    after the state is updated.  [onSuccess] runs inside the [try] of
    [execute]: what the monitor throws there is caught like an error of the
    operation, so [onFailure] runs too and the value is rethrown.  What the
    monitor throws inside [onFailure] leaves [execute] in place of the error
    that was being handled. *)

Section Monitored.
Context {A E M : Type}.

(** What the monitor does when it is called in the course of one call of
    [execute]: [None] if it returns, [Some m] if it throws [m]. *)
Record Monitor : Type := {
  monitor_at_success : option M;   (* monitor("success") *)
  monitor_at_failure : option M    (* monitor("failure", {failureCount, state}) *)
}.

Record ExecutedM : Type := {
  after_m : t;
  invoked_m : bool;
  monitored_m : list MonitorEvent;
  outcome_m : Outcome A (Exn (E + M))
}.

(** The [catch] block, entered with the caught value [caught]. *)
Definition caught_by_execute (b : t) (caught : E + M) (env : FailureEnv)
    (mon : Monitor) (seen : list MonitorEvent) : ExecutedM :=
  let '(b', ev) := onFailure b env in
  {| after_m := b'; invoked_m := true; monitored_m := seen ++ [ev];
     outcome_m :=
       match monitor_at_failure mon with
       | None => Threw (Raised caught)
       | Some m => Threw (Raised (inr m))
       end |}.

Definition execute_monitored (b : t) (c : Call A E) (mon : Monitor)
  : ExecutedM :=
  match enter b (at_call c) with
  | Threw msg =>
      {| after_m := b; invoked_m := false; monitored_m := [];
         outcome_m := Threw (Error msg) |}
  | Returned passed =>
      match operation c with
      | Returned a =>
          let '(b1, ev) := onSuccess passed in
          match monitor_at_success mon with
          | None =>
              {| after_m := b1; invoked_m := true; monitored_m := [ev];
                 outcome_m := Returned a |}
          | Some m => caught_by_execute b1 (inr m) (on_fail c) mon [ev]
          end
      | Threw e => caught_by_execute passed (inl e) (on_fail c) mon []
      end
  end.

(** Overlapping calls with such a monitor: a settlement carries what the
    monitor does in it. *)
Inductive MonitoredEvent : Type :=
| MArrive (now : Q)
| MSucceed (mon : Monitor) (env : FailureEnv)
| MFail (env : FailureEnv) (mon : Monitor).

Definition step_monitored (w : World) (e : MonitoredEvent) : option World :=
  match e with
  | MArrive now => step w (Arrive now)
  | MSucceed mon env =>
      match inFlight w with
      | O => None
      | S n =>
          let '(b1, ev1) := onSuccess (cb w) in
          match monitor_at_success mon with
          | None =>
              Some {| cb := b1; inFlight := n;
                      invoked_total := invoked_total w;
                      rejected_total := rejected_total w;
                      monitor_log := monitor_log w ++ [ev1] |}
          | Some _ =>
              let '(b2, ev2) := onFailure b1 env in
              Some {| cb := b2; inFlight := n;
                      invoked_total := invoked_total w;
                      rejected_total := rejected_total w;
                      monitor_log := monitor_log w ++ [ev1; ev2] |}
          end
      end
  | MFail env _ => step w (Fail env)
  end.

Fixpoint steps_monitored (w : World) (es : list MonitoredEvent)
  : option World :=
  match es with
  | [] => Some w
  | e :: es' =>
      match step_monitored w e with
      | Some w' => steps_monitored w' es'
      | None => None
      end
  end.

(** The settlements among the events, and those of them in which the
    operation succeeded and the monitor threw. *)
Definition is_settlement (e : MonitoredEvent) : bool :=
  match e with MArrive _ => false | _ => true end.

Definition throws_at_success (e : MonitoredEvent) : bool :=
  match e with
  | MSucceed mon _ =>
      match monitor_at_success mon with Some _ => true | None => false end
  | _ => false
  end.

Definition settlements (es : list MonitoredEvent) : nat :=
  length (List.filter is_settlement es).

Definition thrown_at_success (es : list MonitoredEvent) : nat :=
  length (List.filter throws_at_success es).

End Monitored.
Arguments Monitor : clear implicits.
Arguments ExecutedM : clear implicits.
Arguments MonitoredEvent : clear implicits.

(** [getState()]: a fresh object with four of the fields. *)
Record StateView : Set := {
  view_state : State;
  view_failureCount : Z;
  view_lastFailureTime : option Q;
  view_nextAttempt : Q
}.

Definition getState (b : t) : StateView :=
  {| view_state := state b;
     view_failureCount := failureCount b;
     view_lastFailureTime := lastFailureTime b;
     view_nextAttempt := nextAttempt b |}.

End CircuitBreaker.

(** ** ResilientServiceClient: retry with exponential backoff *)

Module ResilientServiceClient.
Import Js.

Record ClientOptions : Set := {
  opt_maxRetries : option Z;
  opt_backoffMultiplier : option Q;
  opt_initialDelay : option Q
}.

Record RetryOptions : Set := {
  maxRetries : Z;
  backoffMultiplier : Q;
  initialDelay : Q
}.

(** The [retryOptions] the constructor builds. *)
Definition retryOptions (options : ClientOptions) : RetryOptions :=
  {| maxRetries := or_defaultZ (opt_maxRetries options) 3;
     backoffMultiplier := or_defaultQ (opt_backoffMultiplier options) (2 # 1);
     initialDelay := or_defaultQ (opt_initialDelay options) (100 # 1) |}.

(** What a run of [retryWithBackoff] does, in order: it invokes the
    operation (in iteration [attempt]) or sleeps for [ms]. *)
Inductive Step : Set :=
| Attempt (attempt : Z)
| Sleep (ms : Q).

Definition delay (opts : RetryOptions) (attempt : Z) : Q :=
  (initialDelay opts * backoffMultiplier opts ^ attempt)%Q.

Section Retry.
Context {A E : Type}.
Variable opts : RetryOptions.
(** [operation attempt]: how the invocation made in iteration [attempt]
    settles. *)
Variable operation : Z -> Outcome A E.

(** The [for] loop, entered at its test with the loop variable [attempt].
    [lastError] is [None] while it is still [undefined]. *)
Equations? loop (attempt : Z) (lastError : option E) (trace : list Step)
  : list Step * Outcome A (option E)
  by wf (Z.to_nat (maxRetries opts + 1 - attempt)) lt :=
loop attempt lastError trace with inspect (attempt <=? maxRetries opts) := {
  | exist _ false _ => (trace, Threw lastError)
  | exist _ true Hle with operation attempt := {
      | Returned a => (trace ++ [Attempt attempt], Returned a)
      | Threw e with inspect (attempt =? maxRetries opts) := {
          | exist _ true _ => (trace ++ [Attempt attempt], Threw (Some e))
          | exist _ false _ =>
              loop (attempt + 1) (Some e)
                (trace ++ [Attempt attempt; Sleep (delay opts attempt)]) } } }.
Proof. apply Z.leb_le in Hle. lia. Qed.

Definition retryWithBackoff : list Step * Outcome A (option E) :=
  loop 0 None [].

End Retry.

(** The iterations in which the operation was invoked, and the sleeps. *)
Definition attempts_of (trace : list Step) : list Z :=
  flat_map (fun s => match s with Attempt i => [i] | Sleep _ => [] end) trace.

Definition delays_of (trace : list Step) : list Q :=
  flat_map (fun s => match s with Attempt _ => [] | Sleep d => [d] end) trace.

(** The run in which attempts [0 .. n] all fail: before attempt [i >= 1] a
    sleep of [initialDelay * backoffMultiplier ^ (i - 1)]. *)
Fixpoint exhausted_trace (opts : RetryOptions) (n : nat) : list Step :=
  match n with
  | O => [Attempt 0]
  | S k =>
      exhausted_trace opts k
      ++ [Sleep (initialDelay opts * backoffMultiplier opts ^ (Z.of_nat (S k) - 1))%Q;
          Attempt (Z.of_nat (S k))]
  end.

(** The run from the loop test at [attempt] on, when attempts
    [attempt .. attempt + n] all fail and the last of them is attempt
    [maxRetries]. *)
Fixpoint remaining (opts : RetryOptions) (attempt : Z) (n : nat)
  : list Step :=
  match n with
  | O => [Attempt attempt]
  | S k =>
      Attempt attempt :: Sleep (delay opts attempt) :: remaining opts (attempt + 1) k
  end.

(** A cancellation signal handed to an executor: [signal k] is what it reads
    once attempt [k] has failed. *)
Definition Signal : Type := Z -> bool.

(** The cancellation contract: when the signal is raised after attempt [k],
    nothing follows that attempt in the run and the run ends with the
    cancellation error. *)
Definition stops_when_cancelled {A E : Type}
    (exec : Signal -> list Step * Outcome A (option E))
    (isCancelledError : option E -> Prop) : Prop :=
  forall (signal : Signal) (k : Z) (before rest : list Step),
    signal k = true ->
    fst (exec signal) = before ++ Attempt k :: rest ->
    rest = [] /\
    exists c, snd (exec signal) = Threw c /\ isCancelledError c.

(** [retryWithBackoff(operation)] called with a signal as an extra argument:
    the method has one parameter, the extra argument is dropped. *)
Definition retryWithBackoff_given {A E : Type} (opts : RetryOptions)
    (operation : Z -> Outcome A E) (signal : Signal)
  : list Step * Outcome A (option E) :=
  retryWithBackoff opts operation.

(** *** The client object and [makeRequest] *)

Record Options : Set := {
  opt_circuitBreaker : option CircuitBreaker.Options;
  opt_retry : ClientOptions
}.

Record t : Set := {
  baseURL : string;
  circuitBreaker : CircuitBreaker.t;
  client_retryOptions : RetryOptions   (* the field [retryOptions] *)
}.

(** [new ResilientServiceClient(baseURL, options)] at clock [now]; an absent
    [options.circuitBreaker] is the default parameter [{}] of the breaker. *)
Definition constructor (url : string) (options : Options) (now : Q) : t :=
  {| baseURL := url;
     circuitBreaker :=
       CircuitBreaker.constructor
         (match opt_circuitBreaker options with
          | Some o => o
          | None => {| CircuitBreaker.opt_failureThreshold := None;
                       CircuitBreaker.opt_timeout := None |}
          end) now;
     client_retryOptions := retryOptions (opt_retry options) |}.

Section Request.
Context {J E : Type}.

(** What [fetch] resolves to: the fields of the response that [makeRequest]
    reads, and how its [json()] promise settles. *)
Record Response : Type := {
  ok : bool;
  status : N;
  statusText : string;
  json : Outcome J E
}.

Definition HttpError (r : Response) : string :=
  ("HTTP " ++ pretty (status r) ++ ": " ++ statusText r)%string.

(** The operation handed to [retryWithBackoff], given how [fetch] settled
    in this attempt. *)
Definition request_attempt (fetched : Outcome Response E) : Outcome J (Exn E) :=
  match fetched with
  | Threw e => Threw (Raised e)
  | Returned r =>
      if ok r then
        match json r with
        | Returned j => Returned j
        | Threw e => Threw (Raised e)
        end
      else Threw (Error (HttpError r))
  end.

Record Requested : Type := {
  client_after : t;
  fetches : list Step;     (* the attempts and sleeps that took place *)
  response : Outcome J (Exn (option (Exn E)))
}.

(** [makeRequest(endpoint, options)], not overlapping another request.
    [fetch attempt] is how the [fetch] of iteration [attempt] settles;
    [now] is the clock at entry and [env] the readings of [onFailure]. *)
Definition makeRequest (c : t) (now : Q) (fetch : Z -> Outcome Response E)
    (env : CircuitBreaker.FailureEnv) : Requested :=
  let retried :=
    retryWithBackoff (client_retryOptions c)
      (fun attempt => request_attempt (fetch attempt)) in
  let x :=
    CircuitBreaker.execute (circuitBreaker c)
      {| CircuitBreaker.at_call := now;
         CircuitBreaker.operation := snd retried;
         CircuitBreaker.on_fail := env |} in
  {| client_after :=
       {| baseURL := baseURL c;
          circuitBreaker := CircuitBreaker.after x;
          client_retryOptions := client_retryOptions c |};
     fetches := if CircuitBreaker.invoked x then fst retried else [];
     response := CircuitBreaker.outcome x |}.

End Request.
Arguments Response : clear implicits.
Arguments Requested : clear implicits.

(** [makeRequest] on a client whose breaker was given a monitor that may
    throw: the same composition over [execute_monitored]. *)
Section MonitoredRequest.
Context {J E M : Type}.

Record RequestedM : Type := {
  client_after_m : t;
  fetches_m : list Step;
  response_m : Outcome J (Exn (option (Exn E) + M))
}.

Definition makeRequest_monitored (c : t) (now : Q)
    (fetch : Z -> Outcome (Response J E) E)
    (env : CircuitBreaker.FailureEnv) (mon : CircuitBreaker.Monitor M)
  : RequestedM :=
  let retried :=
    retryWithBackoff (client_retryOptions c)
      (fun attempt => request_attempt (fetch attempt)) in
  let x :=
    CircuitBreaker.execute_monitored (circuitBreaker c)
      {| CircuitBreaker.at_call := now;
         CircuitBreaker.operation := snd retried;
         CircuitBreaker.on_fail := env |} mon in
  {| client_after_m :=
       {| baseURL := baseURL c;
          circuitBreaker := CircuitBreaker.after_m x;
          client_retryOptions := client_retryOptions c |};
     fetches_m := if CircuitBreaker.invoked_m x then fst retried else [];
     response_m := CircuitBreaker.outcome_m x |}.

End MonitoredRequest.
Arguments RequestedM : clear implicits.

(** The breaker is open and the cool-down has not elapsed at [now]. *)
Definition gate_shut (c : t) (now : Q) : Prop :=
  CircuitBreaker.state (circuitBreaker c) = CircuitBreaker.OPEN /\
  (now < CircuitBreaker.nextAttempt (circuitBreaker c))%Q.

End ResilientServiceClient.

(** ** ResourcePool *)

Module ResourcePool.
Import Js.

(** The function objects that meet in a wait queue.  Acquisition [call]
    creates two of them in [waitForResource]: the [resolve] function of its
    promise, and the arrow function it pushes on [pool.waiting].  They are
    different objects: [indexOf] compares with [===]. *)
Inductive Fn : Set :=
| Resolve (call : nat)
| Waiter (call : nat).

#[global] Instance Fn_eq_dec : EqDecision Fn.
Proof. solve_decision. Defined.

Record Metrics : Set := {
  totalRequests : Z;
  successfulRequests : Z;
  failedRequests : Z;
  averageWaitTime : Q
}.

Record Pool : Set := {
  name : string;
  size : Z;
  available : Z;
  active : Z;
  waiting : list Fn;
  metrics : Metrics
}.

Record Options : Set := {
  opt_defaultPoolSize : option Z;
  opt_maxPoolSize : option Z
}.

Record t : Type := {
  pools : gmap string Pool;
  defaultPoolSize : Z;
  maxPoolSize : Z
}.

Definition constructor (options : Options) : t :=
  {| pools := ∅;
     defaultPoolSize := or_defaultZ (opt_defaultPoolSize options) 10;
     maxPoolSize := or_defaultZ (opt_maxPoolSize options) 50 |}.

Definition set_pools (rp : t) (m : gmap string Pool) : t :=
  {| pools := m;
     defaultPoolSize := defaultPoolSize rp;
     maxPoolSize := maxPoolSize rp |}.

(** [this.pools.set(pool.name, pool)], also how a mutation of a pool object
    reaches the map that holds it. *)
Definition store (rp : t) (pool : Pool) : t :=
  set_pools rp (<[name pool := pool]> (pools rp)).

Definition AlreadyExists (poolName : string) : string :=
  ("Pool " ++ poolName ++ " already exists")%string.
Definition PoolNotFoundError (poolName : string) : string :=
  ("Pool " ++ poolName ++ " does not exist")%string.
Definition PoolTimeoutError (poolName : string) : string :=
  ("Resource acquisition timeout for pool " ++ poolName)%string.

(** [createPool(name, size = this.defaultPoolSize)]; [None] is an omitted
    (undefined) [size]. *)
Definition createPool (rp : t) (poolName : string) (requested : option Z)
  : t * Outcome Pool string :=
  let size := match requested with Some n => n | None => defaultPoolSize rp end in
  match pools rp !! poolName with
  | Some _ => (rp, Threw (AlreadyExists poolName))
  | None =>
      let pool :=
        {| name := poolName; size := size; available := size; active := 0;
           waiting := [];
           metrics := {| totalRequests := 0; successfulRequests := 0;
                         failedRequests := 0; averageWaitTime := 0 |} |} in
      (store rp pool, Returned pool)
  end.

(** Field updates of a pool object. *)
Definition set_counters (av ac : Z) (pool : Pool) : Pool :=
  {| name := name pool; size := size pool; available := av; active := ac;
     waiting := waiting pool; metrics := metrics pool |}.

Definition set_waiting (w : list Fn) (pool : Pool) : Pool :=
  {| name := name pool; size := size pool; available := available pool;
     active := active pool; waiting := w; metrics := metrics pool |}.

Definition set_metrics (m : Metrics) (pool : Pool) : Pool :=
  {| name := name pool; size := size pool; available := available pool;
     active := active pool; waiting := waiting pool; metrics := m |}.

Definition count_request (pool : Pool) : Pool :=
  let m := metrics pool in
  set_metrics {| totalRequests := totalRequests m + 1;
                 successfulRequests := successfulRequests m;
                 failedRequests := failedRequests m;
                 averageWaitTime := averageWaitTime m |} pool.

Definition count_success (pool : Pool) : Pool :=
  let m := metrics pool in
  set_metrics {| totalRequests := totalRequests m;
                 successfulRequests := successfulRequests m + 1;
                 failedRequests := failedRequests m;
                 averageWaitTime := averageWaitTime m |} pool.

Definition count_failure (pool : Pool) : Pool :=
  let m := metrics pool in
  set_metrics {| totalRequests := totalRequests m;
                 successfulRequests := successfulRequests m;
                 failedRequests := failedRequests m + 1;
                 averageWaitTime := averageWaitTime m |} pool.

Definition updateAverageWaitTime (pool : Pool) (waitTime : Q) : Pool :=
  let m := metrics pool in
  set_metrics
    {| totalRequests := totalRequests m;
       successfulRequests := successfulRequests m;
       failedRequests := failedRequests m;
       averageWaitTime :=
         ((averageWaitTime m * inject_Z (totalRequests m - 1) + waitTime)
          / inject_Z (totalRequests m))%Q |}
    pool.

(** [Array.prototype.indexOf]: the first position of [f], or [-1]. *)
Fixpoint indexOf (l : list Fn) (f : Fn) : Z :=
  match l with
  | [] => -1
  | x :: rest =>
      if decide (x = f) then 0
      else let i := indexOf rest f in if i =? -1 then -1 else i + 1
  end.

(** [l.splice(index, 1)] for an index in range. *)
Definition splice1 (l : list Fn) (index : Z) : list Fn :=
  delete (Z.to_nat index) l.

(** The synchronous part of [waitForResource]: a slot is taken ([true]) or
    the arrow function of acquisition [call] is queued ([false]). *)
Definition waitForResource (pool : Pool) (call : nat) : Pool * bool :=
  if 0 <? available pool then
    (set_counters (available pool - 1) (active pool + 1) pool, true)
  else
    (set_waiting (waiting pool ++ [Waiter call]) pool, false).

(** The body of the timer callback of acquisition [call], before its
    [reject]. *)
Definition onTimer (pool : Pool) (call : nat) : Pool :=
  let index := indexOf (waiting pool) (Resolve call) in
  if -1 <? index then set_waiting (splice1 (waiting pool) index) pool
  else pool.

(** Calling a function taken from the queue: the pool after the call and the
    acquisition whose promise it resolves. *)
Definition invoke (f : Fn) (pool : Pool) : Pool * nat :=
  match f with
  | Waiter call =>
      (set_counters (available pool - 1) (active pool + 1) pool, call)
  | Resolve call => (pool, call)
  end.

(** [releaseResource(pool)]; the acquisition woken by the hand-off, if any. *)
Definition releaseResource (pool : Pool) : Pool * option nat :=
  let pool := set_counters (available pool) (active pool - 1) pool in
  match waiting pool with
  | next :: rest =>
      let '(pool', woken) := invoke next (set_waiting rest pool) in
      (pool', Some woken)
  | [] => (set_counters (available pool + 1) (active pool) pool, None)
  end.

Record Stats : Set := {
  stat_name : string;
  stat_size : Z;
  stat_available : Z;
  stat_active : Z;
  stat_waiting : nat;
  (* (active / size) * 100; [None] when the quotient is not a finite number *)
  stat_utilization : option Q;
  stat_metrics : Metrics
}.

(** [getPoolStats(poolName)]; [Returned None] is the value [null]. *)
Definition getPoolStats (rp : t) (poolName : string)
  : t * Outcome (option Stats) string :=
  match pools rp !! poolName with
  | None => (rp, Returned None)
  | Some pool =>
      (rp,
       Returned (Some
         {| stat_name := name pool;
            stat_size := size pool;
            stat_available := available pool;
            stat_active := active pool;
            stat_waiting := length (waiting pool);
            stat_utilization :=
              if size pool =? 0 then None
              else Some (inject_Z (active pool) / inject_Z (size pool)
                         * inject_Z 100)%Q;
            stat_metrics := metrics pool |}))
  end.

Definition is_waiter (f : Fn) : Prop :=
  match f with Waiter _ => True | Resolve _ => False end.

(** *** Overlapping acquisitions

    [acquireResource] runs in atomic segments: its start (up to the wait for
    a slot), the firing of its timer while it is queued, and the settlement
    of its operation.  The tail of a segment includes what the promise
    machinery runs before any other timer or I/O callback: the [catch] and
    [finally] of the call, and the continuation of a waiter that the release
    wakes.  All [Date.now()] readings of one segment are the one [now].
    The continuation of an acquisition that finds a slot at once (its
    [updateAverageWaitTime] and the start of its operation) is taken in the
    same segment as its start; when several acquisitions are started in one
    synchronous turn the source counts all their requests before the first
    of these continuations, so [averageWaitTime], and nothing else, may
    differ there. *)

Section Acquire.
Context {A E : Type}.

Inductive Phase : Type :=
| Queued                            (* promise pending, timer armed *)
| Holding                           (* the operation is running *)
| Settled (r : Outcome A (Exn E)).  (* acquireResource has finished *)

Record Acquisition : Type := {
  on_pool : string;
  startTime : Q;
  deadline : Q;      (* startTime + timeout: when the timer is due *)
  phase : Phase
}.

Definition set_phase (ph : Phase) (a : Acquisition) : Acquisition :=
  {| on_pool := on_pool a; startTime := startTime a; deadline := deadline a;
     phase := ph |}.

Record World : Type := {
  registry : t;
  calls : gmap nat Acquisition
}.

Inductive Event : Type :=
| Acquire (call : nat) (poolName : string) (timeout : option Q) (now : Q)
| Timeout (call : nat) (now : Q)
| Complete (call : nat) (result : Outcome A E) (now : Q).

(** The continuation of [await this.waitForResource(pool, timeout)] in the
    acquisition whose promise was resolved; resolving a promise that is
    already settled does nothing. *)
Definition resume (w : World) (woken : option nat) (now : Q) : World :=
  match woken with
  | None => w
  | Some c =>
      match calls w !! c with
      | Some a =>
          match phase a, pools (registry w) !! on_pool a with
          | Queued, Some pool =>
              {| registry :=
                   store (registry w)
                     (updateAverageWaitTime pool (now - startTime a)%Q);
                 calls := <[c := set_phase Holding a]> (calls w) |}
          | _, _ => w
          end
      | None => w
      end
  end.

(** The [finally] block, and the waiter it may wake. *)
Definition release_and_resume (w : World) (pool : Pool) (now : Q) : World :=
  let '(pool', woken) := releaseResource pool in
  resume {| registry := store (registry w) pool'; calls := calls w |} woken now.

Definition finish (w : World) (c : nat) (a : Acquisition)
    (r : Outcome A (Exn E)) : World :=
  {| registry := registry w;
     calls := <[c := set_phase (Settled r) a]> (calls w) |}.

(** [None]: the event cannot happen in this state. *)
Definition step (w : World) (e : Event) : option World :=
  match e with
  | Acquire c poolName timeout now =>
      let timeout := match timeout with Some ms => ms | None => 5000 # 1 end in
      let a := {| on_pool := poolName; startTime := now;
                  deadline := (now + timeout)%Q; phase := Queued |} in
      match calls w !! c, pools (registry w) !! poolName with
      | Some _, _ => None
      | None, None =>
          Some (finish w c a (Threw (Error (PoolNotFoundError poolName))))
      | None, Some pool =>
          let '(pool', got) := waitForResource (count_request pool) c in
          if got then
            Some {| registry :=
                      store (registry w)
                        (updateAverageWaitTime pool' (now - now)%Q);
                    calls := <[c := set_phase Holding a]> (calls w) |}
          else
            Some {| registry := store (registry w) pool';
                    calls := <[c := a]> (calls w) |}
      end
  | Timeout c now =>
      match calls w !! c with
      | Some a =>
          match phase a, pools (registry w) !! on_pool a with
          | Queued, Some pool =>
              if Qle_bool (deadline a) now then
                let pool1 := onTimer pool c in
                let w1 := finish w c a (Threw (Error (PoolTimeoutError (name pool1)))) in
                Some (release_and_resume w1 (count_failure pool1) now)
              else None
          | _, _ => None
          end
      | None => None
      end
  | Complete c result now =>
      match calls w !! c with
      | Some a =>
          match phase a, pools (registry w) !! on_pool a with
          | Holding, Some pool =>
              match result with
              | Returned x =>
                  Some (release_and_resume (finish w c a (Returned x))
                          (count_success pool) now)
              | Threw err =>
                  Some (release_and_resume (finish w c a (Threw (Raised err)))
                          (count_failure pool) now)
              end
          | _, _ => None
          end
      | None => None
      end
  end.

Fixpoint steps (w : World) (es : list Event) : option World :=
  match es with
  | [] => Some w
  | e :: es' =>
      match step w e with
      | Some w' => steps w' es'
      | None => None
      end
  end.

Definition settled (a : Acquisition) : bool :=
  match phase a with Settled _ => true | _ => false end.

(** No acquisition is queued or running. *)
Definition at_rest (w : World) : Prop :=
  forall c a, calls w !! c = Some a -> settled a = true.

Definition pool_of (w : World) (poolName : string) : option Pool :=
  pools (registry w) !! poolName.

Definition result_of (w : World) (c : nat) : option (Outcome A (Exn E)) :=
  match calls w !! c with
  | Some a => match phase a with Settled r => Some r | _ => None end
  | None => None
  end.

End Acquire.
Arguments World : clear implicits.
Arguments Event : clear implicits.
Arguments Phase : clear implicits.
Arguments Acquisition : clear implicits.

(** A registry holding one pool, and no acquisition yet. *)
Definition single (A E : Type) (poolName : string) (capacity : Z) : World A E :=
  {| registry := fst (createPool (constructor {| opt_defaultPoolSize := None;
                                                   opt_maxPoolSize := None |})
                        poolName (Some capacity));
     calls := ∅ |}.

(** *** More of the registry *)

(** The value [getPoolStats(poolName)] evaluates to ([None] is [null]). *)
Definition stats_value (rp : t) (poolName : string) : option Stats :=
  match snd (getPoolStats rp poolName) with
  | Returned v => v
  | Threw _ => None
  end.

(** [available + active]: the slots a pool accounts for. *)
Definition ledger (pool : Pool) : Z := available pool + active pool.

(** Every pool is stored under its own name. *)
Definition keyed (rp : t) : Prop :=
  forall k pool, pools rp !! k = Some pool -> name pool = k.

(** Every wait queue holds arrow functions pushed by [waitForResource]
    only. *)
Definition queues_of_waiters (rp : t) : Prop :=
  forall k pool, pools rp !! k = Some pool -> Forall is_waiter (waiting pool).

(** [q] is the pool object [p] after some of its fields were updated. *)
Definition same_pool (p q : Pool) : Prop :=
  name q = name p /\ size q = size p /\
  (Forall is_waiter (waiting p) -> Forall is_waiter (waiting q)).

Definition same_counters (p q : Pool) : Prop :=
  available q = available p /\ active q = active p /\ waiting q = waiting p.

(** What a step may do to the pool stored under [k]: keep its identity,
    touch its counters only if the step works on it, and then change
    [available + active] by [delta]. *)
Definition evolves (rp rp' : t) (touched : option string)
    (delta : Pool -> Z) : Prop :=
  (forall k, pools rp !! k = None -> pools rp' !! k = None) /\
  (forall k p, pools rp !! k = Some p ->
     exists q, pools rp' !! k = Some q /\ same_pool p q /\
       (touched <> Some k -> same_counters p q) /\
       (touched = Some k -> ledger q = ledger p - delta p)).

Inductive reachable {A E : Type} (w0 : World A E) : World A E -> Prop :=
| reach_here : reachable w0 w0
| reach_step w e w' :
    reachable w0 w -> step w e = Some w' -> reachable w0 w'.

(** The pool an event works on. *)
Definition pool_name_of {A E : Type} (w : World A E) (e : Event A E)
  : option string :=
  match e with
  | Acquire _ poolName _ _ => Some poolName
  | Timeout c _ | Complete c _ _ => on_pool <$> calls w !! c
  end.

(** Whether the [finally] block of the event finds a function in the queue
    of [pool] (the pool as the event finds it). *)
Definition hands_off {A E : Type} (e : Event A E) (pool : Pool) : bool :=
  match e with
  | Acquire _ _ _ _ => false
  | Timeout c _ =>
      match waiting (onTimer pool c) with [] => false | _ :: _ => true end
  | Complete _ _ _ =>
      match waiting pool with [] => false | _ :: _ => true end
  end.

End ResourcePool.

(** ** DatabaseConnectionPool *)

Module DatabaseConnectionPool.
Import Js ResourcePool.

(** [super()] followed by the three [createPool] calls of the constructor;
    a throwing [createPool] aborts the construction.  The field [dbConfig],
    which no method reads, is left out. *)
Definition constructor : Outcome ResourcePool.t string :=
  let rp0 := ResourcePool.constructor
               {| opt_defaultPoolSize := None; opt_maxPoolSize := None |} in
  match createPool rp0 "read" (Some 20) with
  | (_, Threw err) => Threw err
  | (rp1, Returned _) =>
      match createPool rp1 "write" (Some 5) with
      | (_, Threw err) => Threw err
      | (rp2, Returned _) =>
          match createPool rp2 "report" (Some 3) with
          | (_, Threw err) => Threw err
          | (rp3, Returned _) => Returned rp3
          end
      end
  end.

(** The [switch] of [getPoolForOperation]. *)
Definition getPoolForOperation (operationType : string) : string :=
  if (operationType =? "write")%string then "write"%string
  else if (operationType =? "insert")%string then "write"%string
  else if (operationType =? "update")%string then "write"%string
  else if (operationType =? "delete")%string then "write"%string
  else if (operationType =? "report")%string then "report"%string
  else if (operationType =? "analytics")%string then "report"%string
  else "read"%string.

(** The start of [executeQuery(query, params, operationType = 'read')] as
    acquisition [call]: [acquireResource] on the chosen pool with the
    default timeout. *)
Definition executeQuery {A E : Type} (call : nat)
    (operationType : option string) (now : Q) : Event A E :=
  let operationType :=
    match operationType with Some ty => ty | None => "read"%string end in
  Acquire call (getPoolForOperation operationType) None now.

End DatabaseConnectionPool.

(** ** Statements checked against the code: what the specification claims *)

Module Claims.
Import Js CircuitBreaker.

(** After the calls in [calls], all made one after the other, the breaker is
    open having invoked the operation once per call, and the call [next] is
    turned away unserved. *)
Definition trips_and_rejects {A E : Type}
    (b : CircuitBreaker.t) (calls : list (Call A E)) (next : Call A E) : Prop :=
  let r := run b calls in
  let x := execute (breaker r) next in
  state (breaker r) = OPEN /\
  invocations r = Z.of_nat (length calls) /\
  outcome x = Threw (Error CircuitOpenError) /\
  invoked x = false /\
  invocations (run b (calls ++ [next])) = Z.of_nat (length calls).

(** A half-open trial call has been let through and has not settled. *)
Definition probe_outstanding (w : CircuitBreaker.World) : Prop :=
  state (cb w) = HALF_OPEN /\ (0 < inFlight w)%nat.

(** A call arriving at [now] is rejected without invoking the operation. *)
Definition turned_away (w : CircuitBreaker.World) (now : Q) : Prop :=
  exists w', step w (Arrive now) = Some w' /\
    invoked_total w' = invoked_total w /\
    inFlight w' = inFlight w /\
    rejected_total w' = S (rejected_total w).

(** A call arriving at [now] is let through: the operation is invoked. *)
Definition let_through (w : CircuitBreaker.World) (now : Q) : Prop :=
  exists w', step w (Arrive now) = Some w' /\
    invoked_total w' = S (invoked_total w) /\
    inFlight w' = S (inFlight w) /\
    rejected_total w' = rejected_total w.

End Claims.

(** ** Concrete breakers, clients and pools used as examples *)

Module Scenarios.
Import Js.

Module Breaker.
Import CircuitBreaker.

(** A call at [at_ms] whose operation fails; no jitter. *)
Definition failing_call (at_ms : Q) : Call unit string :=
  {| at_call := at_ms; operation := Threw "boom"%string;
     on_fail := {| at_failure := at_ms; at_open := at_ms; random := 0 |} |}.

(** [failureThreshold = 2], [timeout = 1000], built at time 0. *)
Definition two_strikes : CircuitBreaker.t :=
  constructor {| opt_failureThreshold := Some 2;
                 opt_timeout := Some (1000 # 1) |} 0.

Definition one_strike : Options :=
  {| opt_failureThreshold := Some 1; opt_timeout := Some (1000 # 1) |}.

(** One failure at time 0 opens the breaker until 1000; the call arriving at
    2000 is the probe. *)
Definition probing : list Event :=
  [Arrive 0; Fail {| at_failure := 0; at_open := 0; random := 0 |};
   Arrive (2000 # 1)].

(** One call is served and its operation succeeds, but the monitor throws
    when it is told of the success. *)
Definition monitor_throws_on_success : list (MonitoredEvent string) :=
  [MArrive 0;
   MSucceed {| monitor_at_success := Some "monitor down"%string;
               monitor_at_failure := None |}
     {| at_failure := 5 # 1; at_open := 5 # 1; random := 0 |}].

(** The world those events lead to: the probe is in flight. *)
Definition probing_world : World :=
  {| cb := {| failureThreshold := 1; timeout := 1000 # 1; state := HALF_OPEN;
              failureCount := 1; lastFailureTime := Some 0%Q;
              nextAttempt := (0 + (1000 * 1 + 0 * (1 # 10) * (1000 * 1)))%Q |};
     inFlight := 1; invoked_total := 2; rejected_total := 0;
     monitor_log := [MonFailure 1 OPEN] |}.

End Breaker.

Module Client.
Import ResilientServiceClient.

(** [maxRetries = 3], [backoffMultiplier = 2], [initialDelay = 100]. *)
Definition defaults : RetryOptions :=
  retryOptions {| opt_maxRetries := None; opt_backoffMultiplier := None;
                  opt_initialDelay := None |}.

Definition unavailable : Z -> Outcome unit string :=
  fun _ => Threw "HTTP 503: Service Unavailable"%string.

(** The client of the usage example: threshold 3, timeout 30 s, two
    retries; built at time 0. *)
Definition userService : ResilientServiceClient.t :=
  constructor "https://api.users.service"
    {| opt_circuitBreaker :=
         Some {| CircuitBreaker.opt_failureThreshold := Some 3;
                 CircuitBreaker.opt_timeout := Some (30000 # 1) |};
       opt_retry := {| opt_maxRetries := Some 2;
                       opt_backoffMultiplier := None;
                       opt_initialDelay := None |} |} 0.

(** The same client with its breaker open until 30000. *)
Definition userService_tripped : ResilientServiceClient.t :=
  {| baseURL := baseURL userService;
     circuitBreaker :=
       {| CircuitBreaker.failureThreshold := 3;
          CircuitBreaker.timeout := 30000 # 1;
          CircuitBreaker.state := CircuitBreaker.OPEN;
          CircuitBreaker.failureCount := 3;
          CircuitBreaker.lastFailureTime := Some 0%Q;
          CircuitBreaker.nextAttempt := 30000 # 1 |};
     client_retryOptions := client_retryOptions userService |}.

Definition no_jitter (at_ms : Q) : CircuitBreaker.FailureEnv :=
  {| CircuitBreaker.at_failure := at_ms; CircuitBreaker.at_open := at_ms;
     CircuitBreaker.random := 0 |}.


Definition user_123 : Response string string :=
  {| ok := true; status := 200; statusText := "OK";
     json := Returned "{id: 123}" |}.

(** [fetch] is refused on the first attempt and answers on the second. *)
Definition flaky_fetch (attempt : Z) : Outcome (Response string string) string :=
  if attempt <? 1 then Threw "ECONNRESET"%string else Returned user_123.

End Client.

Module Pools.
Import ResourcePool.

Definition no_options : Options :=
  {| opt_defaultPoolSize := None; opt_maxPoolSize := None |}.

Definition W (capacity : Z) : World unit string := single unit string "db" capacity.

Definition counters (w : World unit string) : option (Z * Z * list Fn) :=
  match pool_of w "db" with
  | Some pool => Some (available pool, active pool, waiting pool)
  | None => None
  end.

(** Call 0 takes the only slot at time 0; call 1 arrives at 10 with a
    timeout of 50 ms and is queued. *)
Definition saturated : list (Event unit string) :=
  [Acquire 0 "db" None 0; Acquire 1 "db" (Some (50 # 1)) (10 # 1)].

(** The world a run of events leads to from the one-slot pool (the pool
    itself if some event cannot happen). *)
Definition after_events (es : list (Event unit string)) : World unit string :=
  match steps (W 1) es with
  | Some w => w
  | None => W 1
  end.

(** The pool object of [W 1], and the same after [saturated]. *)
Definition fresh_db : Pool :=
  {| name := "db"; size := 1; available := 1; active := 0; waiting := [];
     metrics := {| totalRequests := 0; successfulRequests := 0;
                   failedRequests := 0; averageWaitTime := 0 |} |}.

Definition saturated_db : Pool :=
  {| name := "db"; size := 1; available := 0; active := 1;
     waiting := [Waiter 1];
     metrics := {| totalRequests := 2; successfulRequests := 0;
                   failedRequests := 0; averageWaitTime := 0 |} |}.

(** Calls 0 and 1 after [saturated]. *)
Definition holder : Acquisition unit string :=
  {| on_pool := "db"; startTime := 0; deadline := 5000 # 1;
     phase := Holding |}.

Definition queued : Acquisition unit string :=
  {| on_pool := "db"; startTime := 10 # 1; deadline := 60 # 1;
     phase := Queued |}.

(** The three pools of a [DatabaseConnectionPool] and no acquisition yet. *)
Definition db_world : World unit string :=
  {| registry :=
       match DatabaseConnectionPool.constructor with
       | Returned rp => rp
       | Threw _ => constructor no_options
       end;
     calls := ∅ |}.

End Pools.

End Scenarios.

(** ** CircuitBreaker: proofs *)

Module CircuitBreakerFacts.
Import Js CircuitBreaker Claims Scenarios.Breaker.

Lemma Qltb_lt (a b : Q) : Qltb a b = true <-> (a < b)%Q.
Proof.
  unfold Qltb. rewrite negb_true_iff.
  split; intros H.
  - apply Qnot_le_lt. intros Hle. apply Qle_bool_iff in Hle. congruence.
  - destruct (Qle_bool b a) eqn:Hb; [|reflexivity].
    apply Qle_bool_iff in Hb. exfalso. apply (Qlt_not_le _ _ H Hb).
Qed.

Lemma Qltb_ge (a b : Q) : Qltb a b = false <-> (b <= a)%Q.
Proof.
  unfold Qltb. rewrite negb_false_iff. apply Qle_bool_iff.
Qed.

(** The powers of two that [getBackoffDelay] can reach. *)
Lemma pow2_capped (k : Z) : 0 <= k <= 6 -> (1 <= 2 ^ k /\ 2 ^ k <= 64)%Q.
Proof.
  intros Hk.
  assert (Hcases : k = 0 \/ k = 1 \/ k = 2 \/ k = 3 \/ k = 4 \/ k = 5 \/ k = 6)
    by lia.
  destruct Hcases as [->|[->|[->|[->|[->|[->| ->]]]]]];
    split; vm_compute; discriminate.
Qed.

Lemma pow2_of_Z (k : Z) : 0 <= k -> (2 ^ k == inject_Z (2 ^ k))%Q.
Proof.
  intros Hk. change 2%Q with (inject_Z 2).
  symmetry. rewrite <- (Z2Nat.id k Hk).
  generalize (Z.to_nat k). intros n.
  induction n as [|n IH].
  - reflexivity.
  - rewrite Nat2Z.inj_succ, Z.pow_succ_r by lia.
    rewrite inject_Z_mult, IH.
    unfold Z.succ. rewrite Qpower_plus by discriminate.
    change (inject_Z 2 ^ 1)%Q with (inject_Z 2). ring.
Qed.

(** C6. Once [failureCount >= failureThreshold] (and for a positive
    [timeout] and a [Math.random()] reading in [[0, 1)]), [getBackoffDelay]
    returns [timeout * 2 ^ min (failureCount - failureThreshold) 6 + jitter]
    with [0 <= jitter < 0.1 * exponentialDelay]; the exponent is an integer
    between 0 and 6, the exponential part is at most [64 * timeout] and the
    jitter at most a tenth of it. *)
Theorem getBackoffDelay_capped_with_jitter (b : CircuitBreaker.t) (rnd : Q) :
  failureThreshold b <= failureCount b ->
  (0 < timeout b)%Q ->
  (0 <= rnd)%Q -> (rnd < 1)%Q ->
  let k := Z.min (failureCount b - failureThreshold b) 6 in
  let expo := (timeout b * 2 ^ k)%Q in
  0 <= k <= 6 /\
  (expo == timeout b * inject_Z (2 ^ k))%Q /\
  (exists j : Q,
      getBackoffDelay b rnd = (expo + j)%Q /\
      j = (rnd * (1 # 10) * expo)%Q /\
      (0 <= j)%Q /\ (j < (1 # 10) * expo)%Q) /\
  (timeout b <= expo)%Q /\
  (expo <= 64 * timeout b)%Q /\
  (getBackoffDelay b rnd < (11 # 10) * (64 * timeout b))%Q.
Proof.
  intros Hfc Hto Hr0 Hr1 k expo.
  assert (Hk : 0 <= k <= 6) by (unfold k; lia).
  destruct (pow2_capped k Hk) as [Hlo Hhi].
  assert (Hpow : (2 ^ k == inject_Z (2 ^ k))%Q) by (apply pow2_of_Z; lia).
  unfold getBackoffDelay, jitter, exponentialDelay. fold k. fold expo.
  assert (He1 : (timeout b <= expo)%Q) by (unfold expo; nra).
  assert (He2 : (expo <= 64 * timeout b)%Q) by (unfold expo; nra).
  assert (He0 : (0 < expo)%Q) by lra.
  repeat split; try lia; try assumption.
  - unfold expo. rewrite Hpow. reflexivity.
  - exists (rnd * (1 # 10) * expo)%Q.
    repeat split; nra.
  - nra.
Qed.

Lemma getBackoffDelay_capped_with_jitter_witness :
  let b := {| failureThreshold := 3; timeout := 1000 # 1; state := OPEN;
              failureCount := 5; lastFailureTime := None; nextAttempt := 0 |} in
  (getBackoffDelay b (1 # 2) == 4200 # 1)%Q /\
  (getBackoffDelay b (1 # 2) < (11 # 10) * (64 * timeout b))%Q.
Proof.
  intros b.
  split; [reflexivity|].
  apply (getBackoffDelay_capped_with_jitter b (1 # 2)); vm_compute; congruence.
Defined.

(** *** The invariant [state = CLOSED -> failureCount < failureThreshold] *)

Lemma onSuccess_keeps_threshold (b : CircuitBreaker.t) :
  failureThreshold (fst (onSuccess b)) = failureThreshold b.
Proof. reflexivity. Qed.

Lemma onFailure_keeps_threshold (b : CircuitBreaker.t) (env : FailureEnv) :
  failureThreshold (fst (onFailure b env)) = failureThreshold b.
Proof.
  unfold onFailure. cbn.
  destruct (failureThreshold b <=? failureCount b + 1); reflexivity.
Qed.

Lemma enter_keeps_threshold (b b' : CircuitBreaker.t) (now : Q) :
  enter b now = Returned b' -> failureThreshold b' = failureThreshold b.
Proof.
  unfold enter. destruct (state b); [congruence| |congruence].
  destruct (Qltb now (nextAttempt b)); [discriminate|].
  intros [= <-]. reflexivity.
Qed.

Lemma onSuccess_closed_below (b : CircuitBreaker.t) :
  0 < failureThreshold b -> closed_below_threshold (fst (onSuccess b)).
Proof. intros HT _. exact HT. Qed.

Lemma onFailure_closed_below (b : CircuitBreaker.t) (env : FailureEnv) :
  closed_below_threshold b -> closed_below_threshold (fst (onFailure b env)).
Proof.
  unfold closed_below_threshold, onFailure. cbn. intros Hinv.
  destruct (failureThreshold b <=? failureCount b + 1) eqn:Hcmp; cbn.
  - discriminate.
  - intros _. apply Z.leb_gt in Hcmp. exact Hcmp.
Qed.

Lemma enter_closed_below (b b' : CircuitBreaker.t) (now : Q) :
  enter b now = Returned b' ->
  closed_below_threshold b -> closed_below_threshold b'.
Proof.
  unfold enter, closed_below_threshold.
  destruct (state b) eqn:Hs.
  - intros [= <-]. rewrite Hs. auto.
  - destruct (Qltb now (nextAttempt b)); [discriminate|].
    intros [= <-]. cbn. discriminate.
  - intros [= <-]. rewrite Hs. discriminate.
Qed.

Lemma step_sound (w w' : World) (e : Event) :
  step w e = Some w' -> sound w -> sound w'.
Proof.
  unfold sound. intros Hstep [HT Hinv].
  destruct e as [now| |env]; unfold step in Hstep.
  - destruct (enter (cb w) now) as [b'|msg] eqn:Hent;
      injection Hstep as <-; cbn.
    + rewrite (enter_keeps_threshold _ _ _ Hent).
      split; [exact HT|]. exact (enter_closed_below _ _ _ Hent Hinv).
    + split; assumption.
  - destruct (inFlight w); [discriminate|].
    injection Hstep as <-; cbn.
    split; [exact HT|]. intros _. exact HT.
  - destruct (inFlight w); [discriminate|].
    pose proof (onFailure_keeps_threshold (cb w) env) as Hk.
    pose proof (onFailure_closed_below (cb w) env Hinv) as Hc.
    destruct (onFailure (cb w) env) as [b' ev].
    injection Hstep as <-. cbn [cb fst] in *.
    rewrite Hk. split; assumption.
Qed.

Lemma reachable_sound (w0 w : World) :
  sound w0 -> reachable w0 w -> sound w.
Proof.
  intros H0 Hr. induction Hr as [|w e w' _ IH Hstep].
  - exact H0.
  - exact (step_sound _ _ _ Hstep IH).
Qed.

(** C7. For a breaker constructed with a positive [failureThreshold], the
    invariant [state = CLOSED -> failureCount < failureThreshold] holds
    initially, holds in every state reached by any interleaving of arrivals
    and settlements of [execute] calls, and is preserved from there by
    [onSuccess] and by [onFailure]. *)
Theorem closed_implies_below_threshold
    (options : Options) (now : Q) :
  0 < failureThreshold (constructor options now) ->
  closed_below_threshold (constructor options now) /\
  forall w : World,
    reachable (boot options now) w ->
    closed_below_threshold (cb w) /\
    closed_below_threshold (fst (onSuccess (cb w))) /\
    forall env, closed_below_threshold (fst (onFailure (cb w) env)).
Proof.
  intros HT.
  assert (H0 : sound (boot options now)).
  { split; [exact HT|]. intros _. exact HT. }
  split; [apply H0|].
  intros w Hr.
  destruct (reachable_sound _ _ H0 Hr) as [HTw Hinv].
  split; [exact Hinv|]. split.
  - apply onSuccess_closed_below. exact HTw.
  - intros env. apply onFailure_closed_below. exact Hinv.
Qed.

Lemma closed_implies_below_threshold_witness :
  let options := {| opt_failureThreshold := Some 3; opt_timeout := None |} in
  closed_below_threshold (constructor options 0).
Proof.
  intros options.
  apply (closed_implies_below_threshold options 0). reflexivity.
Defined.

(** *** Tripping after [failureThreshold] failures *)

Section Sequential.
Context {A E : Type}.
Implicit Types (b : CircuitBreaker.t) (c next : Call A E)
  (calls : list (Call A E)) (r : Run A E).

Lemma run_snoc b calls c :
  run b (calls ++ [c]) = run_call (run b calls) c.
Proof. unfold run. rewrite fold_left_app. reflexivity. Qed.

Lemma execute_failure_closed b c :
  state b = CLOSED -> fails c ->
  invoked (execute b c) = true /\
  after (execute b c) = fst (onFailure b (on_fail c)).
Proof.
  unfold fails, execute, enter. intros -> Hf.
  destruct (operation c) as [a|e]; [contradiction|].
  cbn. split; reflexivity.
Qed.

Lemma execute_rejected b next :
  state b = OPEN -> (at_call next < nextAttempt b)%Q ->
  execute b next =
    {| after := b; invoked := false; monitored := [];
       outcome := Threw (Error CircuitOpenError) |}.
Proof.
  intros Hs Hlt. unfold execute, enter. rewrite Hs.
  apply Qltb_lt in Hlt. rewrite Hlt. reflexivity.
Qed.

Lemma execute_served_after_cooldown b next :
  state b = OPEN -> (nextAttempt b <= at_call next)%Q ->
  invoked (execute b next) = true.
Proof.
  intros Hs Hle. unfold execute, enter. rewrite Hs.
  apply Qltb_ge in Hle. rewrite Hle.
  destruct (settle _ _ _) as [[b' ev] out]. reflexivity.
Qed.

(** While the count stays under the threshold the breaker stays closed and
    every failing call is served. *)
Lemma failures_below_threshold calls : forall r,
  state (breaker r) = CLOSED ->
  Forall fails calls ->
  failureCount (breaker r) + Z.of_nat (length calls)
    < failureThreshold (breaker r) ->
  let r' := fold_left run_call calls r in
  state (breaker r') = CLOSED /\
  failureCount (breaker r')
    = failureCount (breaker r) + Z.of_nat (length calls) /\
  failureThreshold (breaker r') = failureThreshold (breaker r) /\
  invocations r' = invocations r + Z.of_nat (length calls).
Proof.
  induction calls as [|c calls IH]; intros r Hs Hall Hlt.
  - cbn. repeat split; try lia; assumption.
  - inversion Hall as [|? ? Hc Hrest]; subst.
    cbn [length] in Hlt. rewrite Nat2Z.inj_succ in Hlt.
    destruct (execute_failure_closed (breaker r) c Hs Hc) as [Hinv Haft].
    assert (Hb : breaker (run_call r c) = fst (onFailure (breaker r) (on_fail c)))
      by (unfold run_call; cbn; exact Haft).
    assert (Hn : invocations (run_call r c) = invocations r + 1)
      by (unfold run_call; cbn; rewrite Hinv; reflexivity).
    assert (Hcmp : (failureThreshold (breaker r) <=? failureCount (breaker r) + 1)
                   = false) by (apply Z.leb_gt; lia).
    assert (Hone : state (breaker (run_call r c)) = CLOSED /\
                   failureCount (breaker (run_call r c))
                     = failureCount (breaker r) + 1 /\
                   failureThreshold (breaker (run_call r c))
                     = failureThreshold (breaker r)).
    { rewrite Hb. unfold onFailure. cbn. rewrite Hcmp. cbn. auto. }
    destruct Hone as (Hs1 & Hfc1 & HT1).
    specialize (IH (run_call r c) Hs1 Hrest).
    rewrite Hfc1, HT1 in IH.
    cbn [fold_left length]. rewrite Nat2Z.inj_succ.
    destruct IH as (H1 & H2 & H3 & H4); [lia|].
    repeat split; [exact H1|lia|exact H3|lia].
Qed.

(** The failure that reaches the threshold opens the breaker. *)
Lemma failure_at_threshold r c :
  state (breaker r) = CLOSED -> fails c ->
  failureCount (breaker r) + 1 = failureThreshold (breaker r) ->
  state (breaker (run_call r c)) = OPEN /\
  failureCount (breaker (run_call r c)) = failureThreshold (breaker r) /\
  invocations (run_call r c) = invocations r + 1.
Proof.
  intros Hs Hc Heq.
  destruct (execute_failure_closed (breaker r) c Hs Hc) as [Hinv Haft].
  unfold run_call. cbn. rewrite Hinv, Haft.
  unfold onFailure. cbn.
  rewrite (proj2 (Z.leb_le _ _)) by lia. cbn.
  repeat split; lia.
Qed.

(** Tripping, with the gate taken as found: T failing calls in a row open a
    closed breaker of threshold T, and a next call whose clock reading is
    below the [nextAttempt] then stored is rejected. *)
Lemma trips_after_threshold_failures b calls next :
  0 < failureThreshold b ->
  state b = CLOSED ->
  failureCount b = 0 ->
  Z.of_nat (length calls) = failureThreshold b ->
  Forall fails calls ->
  (at_call next < nextAttempt (breaker (run b calls)))%Q ->
  (forall k, (k < length calls)%nat ->
     state (breaker (run b (firstn k calls))) = CLOSED) /\
  invocations (run b calls) = failureThreshold b /\
  trips_and_rejects b calls next.
Proof.
  intros HT Hs Hfc Hlen Hall Hnow.
  set (r0 := {| breaker := b; invocations := 0; outcomes := [] |} : Run A E).
  assert (Hbelow : forall k, (k < length calls)%nat ->
            let r := run b (firstn k calls) in
            state (breaker r) = CLOSED /\
            failureCount (breaker r) = Z.of_nat k /\
            failureThreshold (breaker r) = failureThreshold b /\
            invocations r = Z.of_nat k).
  { intros k Hk.
    assert (Hlk : length (firstn k calls) = k)
      by (rewrite length_firstn; lia).
    destruct (failures_below_threshold (firstn k calls) r0) as (H1 & H2 & H3 & H4).
    - exact Hs.
    - apply Forall_take. exact Hall.
    - cbn. rewrite Hlk. lia.
    - cbn in *. rewrite Hlk in *. unfold run. fold r0.
      repeat split; [exact H1|lia|exact H3|lia]. }
  assert (Hne : calls <> []) by (intros ->; cbn in Hlen; lia).
  destruct (exists_last Hne) as (pre & c & Hcalls).
  assert (Hpre : firstn (length pre) calls = pre)
    by (rewrite Hcalls; rewrite firstn_app, Nat.sub_diag, firstn_all; cbn;
        apply app_nil_r).
  assert (Hlp : (length pre < length calls)%nat)
    by (rewrite Hcalls, length_app; cbn; lia).
  assert (Hcl : length calls = S (length pre))
    by (rewrite Hcalls, length_app; cbn; lia).
  destruct (Hbelow _ Hlp) as (Hs1 & Hfc1 & HT1 & Hn1). rewrite Hpre in *.
  assert (Hc : fails c).
  { rewrite Hcalls in Hall. apply Forall_app in Hall as [_ Hl].
    inversion Hl; assumption. }
  destruct (failure_at_threshold (run b pre) c Hs1 Hc) as (Hopen & _ & Hinv).
  { rewrite Hfc1, HT1. lia. }
  assert (Hrun : run b calls = run_call (run b pre) c)
    by (rewrite Hcalls; apply run_snoc).
  assert (Hcount : invocations (run b calls) = failureThreshold b)
    by (rewrite Hrun, Hinv, Hn1; lia).
  split; [intros k Hk; apply (Hbelow k Hk)|].
  split; [exact Hcount|].
  unfold trips_and_rejects.
  rewrite run_snoc.
  rewrite <- Hrun in Hopen.
  pose proof (execute_rejected _ next Hopen Hnow) as Hrej.
  unfold run_call at 1. rewrite Hrej. cbn.
  repeat split; try assumption; lia.
Qed.

Lemma execute_keeps_timeout b c : timeout (after (execute b c)) = timeout b.
Proof.
  unfold execute, enter, settle, onFailure.
  destruct (state b); try destruct (Qltb (at_call c) (nextAttempt b));
    destruct (operation c); cbn;
    try destruct (failureThreshold b <=? failureCount b + 1); reflexivity.
Qed.

Lemma run_keeps_timeout calls : forall r,
  timeout (breaker (fold_left run_call calls r)) = timeout (breaker r).
Proof.
  induction calls as [|c calls IH]; intros r; [reflexivity|].
  cbn [fold_left]. rewrite IH. unfold run_call. cbn.
  apply execute_keeps_timeout.
Qed.

(** Where the T-th failure puts [nextAttempt]: the clock reading of that
    failure plus [getBackoffDelay()], which at [failureCount =
    failureThreshold] is [timeout] plus the jitter [random * 0.1 * timeout]. *)
Lemma trip_sets_nextAttempt b (pre : list (Call A E)) (last : Call A E) :
  0 < failureThreshold b ->
  state b = CLOSED ->
  failureCount b = 0 ->
  Z.of_nat (length (pre ++ [last])) = failureThreshold b ->
  Forall fails (pre ++ [last]) ->
  (nextAttempt (breaker (run b (pre ++ [last])))
   == at_open (on_fail last)
      + (timeout b + random (on_fail last) * (1 # 10) * timeout b))%Q.
Proof.
  intros HT Hs Hfc Hlen Hall.
  rewrite length_app, Nat2Z.inj_add in Hlen. cbn [length] in Hlen.
  change (Z.of_nat 1) with 1 in Hlen.
  apply Forall_app in Hall as [Hpre Hlast].
  assert (Hc : fails last) by (inversion Hlast; assumption).
  set (r0 := {| breaker := b; invocations := 0; outcomes := [] |} : Run A E).
  destruct (failures_below_threshold pre r0 Hs Hpre) as (Hs1 & Hfc1 & HT1 & _).
  { cbn. lia. }
  pose proof (run_keeps_timeout pre r0) as Hto. cbn [breaker r0] in Hto.
  change (fold_left run_call pre r0) with (run b pre) in Hs1, Hfc1, HT1, Hto.
  cbn [breaker r0] in Hfc1, HT1, Hto. clear r0.
  destruct (execute_failure_closed (breaker (run b pre)) last Hs1 Hc)
    as [_ Haft].
  rewrite run_snoc. unfold run_call at 1. cbn [breaker]. rewrite Haft.
  unfold onFailure. cbn.
  rewrite (proj2 (Z.leb_le _ _)) by lia. cbn.
  unfold getBackoffDelay, jitter, exponentialDelay. cbn.
  replace (failureCount (breaker (run b pre)) + 1
           - failureThreshold (breaker (run b pre))) with 0 by lia.
  rewrite Hto. change (2 ^ Z.min 0 6)%Q with 1%Q. ring.
Qed.

(** C1. For a breaker with positive [failureThreshold] T that is closed
    with [failureCount = 0], T calls of [execute] in a row whose operation
    fails leave it open (it is still closed after any fewer), the operation
    having been invoked T times; the T-th failure sets [nextAttempt] to its
    clock reading plus the backoff delay, and the (T+1)th call, arriving
    within that cool-down, is rejected with the [Circuit breaker is OPEN]
    error without invoking the operation, so the count of invocations stays
    at T. *)
Theorem trips_then_rejects_during_cooldown b (pre : list (Call A E))
    (last next : Call A E) :
  0 < failureThreshold b ->
  state b = CLOSED ->
  failureCount b = 0 ->
  Z.of_nat (length (pre ++ [last])) = failureThreshold b ->
  Forall fails (pre ++ [last]) ->
  (at_call next
   < at_open (on_fail last)
     + (timeout b + random (on_fail last) * (1 # 10) * timeout b))%Q ->
  (forall k, (k < length (pre ++ [last]))%nat ->
     state (breaker (run b (firstn k (pre ++ [last])))) = CLOSED) /\
  invocations (run b (pre ++ [last])) = failureThreshold b /\
  (nextAttempt (breaker (run b (pre ++ [last])))
   == at_open (on_fail last)
      + (timeout b + random (on_fail last) * (1 # 10) * timeout b))%Q /\
  trips_and_rejects b (pre ++ [last]) next.
Proof.
  intros HT Hs Hfc Hlen Hall Hnow.
  pose proof (trip_sets_nextAttempt b pre last HT Hs Hfc Hlen Hall) as Hnext.
  assert (Hgate : (at_call next < nextAttempt (breaker (run b (pre ++ [last]))))%Q)
    by (rewrite Hnext; exact Hnow).
  destruct (trips_after_threshold_failures b (pre ++ [last]) next
              HT Hs Hfc Hlen Hall Hgate) as (Hbelow & Hcount & Htrips).
  split; [exact Hbelow|]. split; [exact Hcount|].
  split; [exact Hnext|exact Htrips].
Qed.

End Sequential.

Lemma trips_then_rejects_during_cooldown_witness :
  trips_and_rejects two_strikes ([failing_call 0] ++ [failing_call 1])
    (failing_call 1000).
Proof.
  apply (trips_then_rejects_during_cooldown two_strikes
           [failing_call 0] (failing_call 1) (failing_call 1000)).
  - reflexivity.
  - reflexivity.
  - reflexivity.
  - reflexivity.
  - repeat constructor.
  - reflexivity.
Defined.

Lemma trips_after_threshold_failures_witness :
  trips_and_rejects two_strikes [failing_call 0; failing_call 1]
    (failing_call 500).
Proof.
  apply (trips_after_threshold_failures two_strikes
           [failing_call 0; failing_call 1] (failing_call 500)).
  - reflexivity.
  - reflexivity.
  - reflexivity.
  - reflexivity.
  - repeat constructor.
  - reflexivity.
Defined.

(** Once the cool-down is over the gate opens again: after the same two
    failures ([nextAttempt] is 1001) a third call at 5000 is let through to
    the operation, as the half-open trial. *)
Lemma late_call_reaches_operation :
  0 < failureThreshold two_strikes /\
  state two_strikes = CLOSED /\
  failureCount two_strikes = 0 /\
  Z.of_nat (length [failing_call 0; failing_call 1])
    = failureThreshold two_strikes /\
  Forall fails [failing_call 0; failing_call 1] /\
  invoked (execute (breaker (run two_strikes [failing_call 0; failing_call 1]))
             (failing_call 5000)) = true /\
  invocations (run two_strikes
                 [failing_call 0; failing_call 1; failing_call 5000]) = 3 /\
  ~ trips_and_rejects two_strikes [failing_call 0; failing_call 1]
      (failing_call 5000).
Proof.
  repeat split; try reflexivity.
  - repeat constructor.
  - intros (_ & _ & _ & Hinv & _). vm_compute in Hinv. discriminate.
Qed.

(** *** Calls arriving while a half-open trial call is outstanding *)

(** The gate turns a call away exactly when the breaker is open and the
    cool-down has not elapsed. *)
Lemma turned_away_iff (w : World) (now : Q) :
  turned_away w now <->
  state (cb w) = OPEN /\ (now < nextAttempt (cb w))%Q.
Proof.
  unfold turned_away, step, enter. split.
  - intros (w' & Hstep & Hinv & _).
    destruct (state (cb w)) eqn:Hs.
    + injection Hstep as <-. cbn in Hinv. lia.
    + destruct (Qltb now (nextAttempt (cb w))) eqn:Hlt.
      * split; [reflexivity|]. apply Qltb_lt. exact Hlt.
      * injection Hstep as <-. cbn in Hinv. lia.
    + injection Hstep as <-. cbn in Hinv. lia.
  - intros [-> Hlt]. apply Qltb_lt in Hlt. rewrite Hlt.
    eexists. split; [reflexivity|]. cbn. auto.
Qed.

Lemma half_open_arrival (w : World) (now : Q) :
  state (cb w) = HALF_OPEN ->
  step w (Arrive now) =
    Some {| cb := cb w; inFlight := S (inFlight w);
            invoked_total := S (invoked_total w);
            rejected_total := rejected_total w;
            monitor_log := monitor_log w |}.
Proof. intros Hs. unfold step, enter. rewrite Hs. reflexivity. Qed.

Lemma half_open_arrivals (nows : list Q) : forall w : World,
  state (cb w) = HALF_OPEN ->
  steps w (map Arrive nows) =
    Some {| cb := cb w; inFlight := (inFlight w + length nows)%nat;
            invoked_total := (invoked_total w + length nows)%nat;
            rejected_total := rejected_total w;
            monitor_log := monitor_log w |}.
Proof.
  induction nows as [|now nows IH]; intros w Hs.
  - cbn. rewrite !Nat.add_0_r. destruct w; reflexivity.
  - cbn [map steps length]. rewrite (half_open_arrival w now Hs).
    rewrite IH by exact Hs. cbn.
    rewrite <- !Nat.add_succ_comm. reflexivity.
Qed.

(** C2, as it holds of the code. [execute] has no guard for a trial call
    in flight: while the breaker is half-open with a probe outstanding, a
    call arriving at any time is let through and invokes the operation, the
    breaker stays half-open, and any number of such calls adds that many
    operations in flight with none rejected. *)
Theorem half_open_lets_every_call_through (w : World) (nows : list Q) :
  probe_outstanding w ->
  (forall now, let_through w now /\ ~ turned_away w now) /\
  exists w',
    steps w (map Arrive nows) = Some w' /\
    probe_outstanding w' /\
    inFlight w' = (inFlight w + length nows)%nat /\
    invoked_total w' = (invoked_total w + length nows)%nat /\
    rejected_total w' = rejected_total w.
Proof.
  intros [Hs Hfl]. split.
  - intros now. split.
    + unfold let_through. rewrite (half_open_arrival w now Hs).
      eexists. split; [reflexivity|]. cbn. auto.
    + rewrite turned_away_iff. rewrite Hs. intros [Hopen _]. discriminate.
  - rewrite (half_open_arrivals nows w Hs).
    eexists. split; [reflexivity|]. cbn.
    repeat split; cbn; [exact Hs|lia].
Qed.

Lemma probing_reaches : steps (boot one_strike 0) probing = Some probing_world.
Proof. reflexivity. Qed.

Lemma half_open_lets_every_call_through_witness :
  exists w',
    steps probing_world (map Arrive [2001 # 1; 2002 # 1]) = Some w' /\
    probe_outstanding w' /\
    inFlight w' = 3%nat /\ invoked_total w' = 4%nat /\ rejected_total w' = 0%nat.
Proof.
  apply (half_open_lets_every_call_through probing_world [2001 # 1; 2002 # 1]).
  split; [reflexivity|]. cbn. lia.
Defined.

(** C2 as stated fails: with the probe of [probing_world] outstanding, a
    second call (at 2001) is not rejected; it invokes the operation, so two
    operations are in flight. *)
Lemma second_probe_let_through :
  steps (boot one_strike 0) probing = Some probing_world /\
  probe_outstanding probing_world /\
  ~ turned_away probing_world (2001 # 1) /\
  exists w',
    step probing_world (Arrive (2001 # 1)) = Some w' /\
    inFlight w' = 2%nat /\ invoked_total w' = 3%nat /\
    rejected_total w' = 0%nat.
Proof.
  split; [reflexivity|].
  split; [split; [reflexivity|cbn; lia]|].
  split.
  - intros (w' & Hstep & Hinv & _).
    vm_compute in Hstep. injection Hstep as <-. cbn in Hinv. lia.
  - eexists. split; [reflexivity|]. cbn. auto.
Qed.

End CircuitBreakerFacts.

(** ** Retry with backoff: proofs *)

Module RetryFacts.
Import Js ResilientServiceClient Scenarios.Client.

Section Loop.
Context {A E : Type}.
Variable opts : RetryOptions.
Variable operation : Z -> Outcome A E.

(** One turn of the [for] loop. *)
Lemma loop_turn (attempt : Z) (lastError : option E) (trace : list Step) :
  loop opts operation attempt lastError trace =
  if attempt <=? maxRetries opts then
    match operation attempt with
    | Returned a => (trace ++ [Attempt attempt], Returned a)
    | Threw e =>
        if attempt =? maxRetries opts
        then (trace ++ [Attempt attempt], Threw (Some e))
        else loop opts operation (attempt + 1) (Some e)
               (trace ++ [Attempt attempt; Sleep (delay opts attempt)])
    end
  else (trace, Threw lastError).
Proof.
  funelim (loop opts operation attempt lastError trace);
    repeat match goal with
      | H : (_ <=? _) = _ |- _ => rewrite H
      | H : (_ =? _) = _ |- _ => rewrite H
      | H : operation _ = _ |- _ => rewrite H
      end;
    reflexivity.
Qed.

Lemma remaining_snoc (n : nat) : forall attempt,
  remaining opts attempt (S n) =
  remaining opts attempt n
  ++ [Sleep (delay opts (attempt + Z.of_nat n));
      Attempt (attempt + Z.of_nat n + 1)].
Proof.
  induction n as [|n IH]; intros attempt.
  - cbn. rewrite Z.add_0_r. reflexivity.
  - change (remaining opts attempt (S (S n)))
      with (Attempt attempt :: Sleep (delay opts attempt)
            :: remaining opts (attempt + 1) (S n)).
    rewrite IH. cbn [remaining app].
    replace (attempt + 1 + Z.of_nat n) with (attempt + Z.of_nat (S n)) by lia.
    reflexivity.
Qed.

Lemma remaining_exhausted (n : nat) : remaining opts 0 n = exhausted_trace opts n.
Proof.
  induction n as [|n IH].
  - reflexivity.
  - rewrite remaining_snoc, IH. cbn [exhausted_trace]. unfold delay.
    replace (Z.of_nat (S n) - 1) with (0 + Z.of_nat n) by lia.
    replace (Z.of_nat (S n)) with (0 + Z.of_nat n + 1) by lia.
    reflexivity.
Qed.

Variable err : Z -> E.
Hypothesis always_fails : forall i, operation i = Threw (err i).

Lemma loop_exhausts (n : nat) : forall attempt lastError trace,
  attempt + Z.of_nat n = maxRetries opts ->
  loop opts operation attempt lastError trace =
  (trace ++ remaining opts attempt n, Threw (Some (err (maxRetries opts)))).
Proof.
  induction n as [|n IH]; intros attempt lastError trace Hn;
    rewrite loop_turn, always_fails.
  - assert (Ha : attempt = maxRetries opts) by lia.
    rewrite (proj2 (Z.leb_le _ _)) by lia.
    rewrite (proj2 (Z.eqb_eq _ _) Ha). rewrite Ha. reflexivity.
  - rewrite (proj2 (Z.leb_le _ _)) by lia.
    rewrite (proj2 (Z.eqb_neq _ _)) by lia.
    rewrite IH by lia. cbn [remaining].
    rewrite <- app_assoc. reflexivity.
Qed.

Lemma retry_exhausted :
  0 <= maxRetries opts ->
  retryWithBackoff opts operation =
  (exhausted_trace opts (Z.to_nat (maxRetries opts)),
   Threw (Some (err (maxRetries opts)))).
Proof.
  intros Hmax. unfold retryWithBackoff.
  rewrite (loop_exhausts (Z.to_nat (maxRetries opts))) by lia.
  rewrite remaining_exhausted. reflexivity.
Qed.

End Loop.

Lemma attempts_of_app (t1 t2 : list Step) :
  attempts_of (t1 ++ t2) = attempts_of t1 ++ attempts_of t2.
Proof. apply flat_map_app. Qed.

Lemma delays_of_app (t1 t2 : list Step) :
  delays_of (t1 ++ t2) = delays_of t1 ++ delays_of t2.
Proof. apply flat_map_app. Qed.

Lemma attempts_of_exhausted (opts : RetryOptions) (n : nat) :
  attempts_of (exhausted_trace opts n) = map Z.of_nat (seq 0 (S n)).
Proof.
  induction n as [|n IH].
  - reflexivity.
  - cbn [exhausted_trace]. rewrite attempts_of_app, IH.
    rewrite (seq_S (S n) 0), map_app. reflexivity.
Qed.

Lemma delays_of_exhausted (opts : RetryOptions) (n : nat) :
  delays_of (exhausted_trace opts n) =
  map (fun i => (initialDelay opts * backoffMultiplier opts ^ (Z.of_nat i - 1))%Q)
      (seq 1 n).
Proof.
  induction n as [|n IH].
  - reflexivity.
  - cbn [exhausted_trace]. rewrite delays_of_app, IH.
    rewrite (seq_S n 1), map_app. reflexivity.
Qed.

(** Whatever the operation does, no run invokes it more than
    [maxRetries + 1] times. *)
Lemma attempts_bounded {A E : Type} (opts : RetryOptions)
    (operation : Z -> Outcome A E) (attempt : Z) (lastError : option E)
    (trace : list Step) :
  (length (attempts_of (fst (loop opts operation attempt lastError trace)))
   <= length (attempts_of trace) + Z.to_nat (maxRetries opts + 1 - attempt))%nat.
Proof.
  funelim (loop opts operation attempt lastError trace);
    try match goal with
      | IH : (length (attempts_of (fst (loop _ _ _ _ _))) <= _)%nat |- _ =>
          eapply Nat.le_trans; [exact IH|]
      end;
    cbn [fst]; rewrite ?attempts_of_app, ?length_app;
    unfold attempts_of; cbn [flat_map app length];
    try match goal with
      | H : (_ <=? _) = true |- _ => pose proof (proj1 (Z.leb_le _ _) H)
      end;
    lia.
Qed.

(** C5. When every attempt fails (and [maxRetries >= 0]),
    [retryWithBackoff] invokes the operation in iterations
    [0 .. maxRetries], that is [maxRetries + 1] times, sleeps
    [initialDelay * backoffMultiplier ^ (i - 1)] right before attempt
    [i >= 1] and nothing before attempt 0, and throws the error of the last
    attempt. *)
Theorem retry_exhausts_budget {A E : Type} (opts : RetryOptions)
    (operation : Z -> Outcome A E) (err : Z -> E) :
  0 <= maxRetries opts ->
  (forall i, operation i = Threw (err i)) ->
  let done := retryWithBackoff opts operation in
  let n := Z.to_nat (maxRetries opts) in
  fst done = exhausted_trace opts n /\
  attempts_of (fst done) = map Z.of_nat (seq 0 (S n)) /\
  Z.of_nat (length (attempts_of (fst done))) = maxRetries opts + 1 /\
  delays_of (fst done) =
    map (fun i => (initialDelay opts * backoffMultiplier opts ^ (Z.of_nat i - 1))%Q)
        (seq 1 n) /\
  snd done = Threw (Some (err (maxRetries opts))).
Proof.
  intros Hmax Hfail done n. unfold done.
  rewrite (retry_exhausted opts operation err Hfail Hmax). cbn [fst snd].
  fold n. rewrite attempts_of_exhausted, delays_of_exhausted.
  repeat split.
  rewrite length_map, length_seq. lia.
Qed.

(** With [maxRetries = 3], [initialDelay = 100], [backoffMultiplier = 2]
    (the defaults): sleeps of 100, 200 and 400 ms, four attempts. *)
Lemma retry_exhausts_budget_witness :
  maxRetries defaults = 3 /\
  (initialDelay defaults == 100 # 1)%Q /\
  (backoffMultiplier defaults == 2 # 1)%Q /\
  delays_of (fst (retryWithBackoff defaults unavailable))
    = [100 # 1; 200 # 1; 400 # 1]%Q /\
  length (attempts_of (fst (retryWithBackoff defaults unavailable))) = 4%nat /\
  snd (retryWithBackoff defaults unavailable)
    = Threw (Some "HTTP 503: Service Unavailable"%string).
Proof.
  destruct (retry_exhausts_budget defaults unavailable
              (fun _ => "HTTP 503: Service Unavailable"%string))
    as (_ & Hatt & _ & Hdel & Hres).
  - vm_compute. discriminate.
  - reflexivity.
  - split; [reflexivity|]. split; [reflexivity|]. split; [reflexivity|].
    split; [rewrite Hdel; reflexivity|].
    split; [rewrite Hatt; reflexivity|exact Hres].
Defined.

(** *** Cancellation *)

(** C8 as stated fails: a signal raised after attempt 0 changes nothing;
    the run goes on to sleep 100 ms and to make three more attempts. *)
Lemma retry_ignores_cancellation :
  ~ stops_when_cancelled (retryWithBackoff_given defaults unavailable)
      (fun _ => True).
Proof.
  intros Hstop.
  assert (Htrace : fst (retryWithBackoff defaults unavailable)
                   = exhausted_trace defaults 3).
  { rewrite (retry_exhausted defaults unavailable
               (fun _ => "HTTP 503: Service Unavailable"%string)).
    - reflexivity.
    - reflexivity.
    - vm_compute. discriminate. }
  destruct (Hstop (fun _ => true) 0 []
              (tl (exhausted_trace defaults 3))) as [Hrest _].
  - reflexivity.
  - unfold retryWithBackoff_given. rewrite Htrace. reflexivity.
  - discriminate Hrest.
Qed.

(** C8, as it holds of the code. [retryWithBackoff] reads no cancellation
    or deadline signal: whatever signal accompanies the call, a run whose
    attempts all fail makes all [maxRetries + 1] attempts with all
    [maxRetries] sleeps between them and throws the operation's last error;
    no other error is produced. *)
Theorem retry_runs_on_when_cancelled {A E : Type} (opts : RetryOptions)
    (operation : Z -> Outcome A E) (err : Z -> E) (signal : Signal) :
  0 <= maxRetries opts ->
  (forall i, operation i = Threw (err i)) ->
  retryWithBackoff_given opts operation signal =
    (exhausted_trace opts (Z.to_nat (maxRetries opts)),
     Threw (Some (err (maxRetries opts)))) /\
  forall other : Signal,
    retryWithBackoff_given opts operation other
    = retryWithBackoff_given opts operation signal.
Proof.
  intros Hmax Hfail. split.
  - unfold retryWithBackoff_given.
    apply (retry_exhausted opts operation err Hfail Hmax).
  - reflexivity.
Qed.

Lemma retry_runs_on_when_cancelled_witness :
  retryWithBackoff_given defaults unavailable (fun _ => true) =
    ([Attempt 0; Sleep (100 # 1); Attempt 1; Sleep (200 # 1); Attempt 2;
      Sleep (400 # 1); Attempt 3],
     Threw (Some "HTTP 503: Service Unavailable"%string)).
Proof.
  apply (retry_runs_on_when_cancelled defaults unavailable
           (fun _ => "HTTP 503: Service Unavailable"%string) (fun _ => true)).
  - vm_compute. discriminate.
  - reflexivity.
Defined.

End RetryFacts.

(** ** ResourcePool: proofs *)

Module ResourcePoolFacts.
Import Js ResourcePool Scenarios.Pools.

(** *** Registry: [createPool] and [getPoolStats] *)

Lemma createPool_fresh (rp : ResourcePool.t) (poolName : string)
    (requested : option Z) :
  pools rp !! poolName = None ->
  exists pool,
    createPool rp poolName requested = (store rp pool, Returned pool) /\
    name pool = poolName /\
    size pool = match requested with
                | Some n => n
                | None => defaultPoolSize rp
                end /\
    available pool = size pool /\ active pool = 0 /\ waiting pool = [].
Proof.
  intros Hnone. unfold createPool. rewrite Hnone.
  eexists. split; [reflexivity|]. cbn. auto.
Qed.

Lemma createPool_default_size (poolName : string) :
  exists pool rp',
    createPool (constructor no_options) poolName None = (rp', Returned pool) /\
    size pool = 10.
Proof.
  destruct (createPool_fresh (constructor no_options) poolName None)
    as (pool & Hc & _ & Hsize & _).
  - apply lookup_empty.
  - exists pool, (store (constructor no_options) pool).
    split; [exact Hc|exact Hsize].
Qed.

(** C9, evaluated on the code: the registry built with no options records
    [maxPoolSize = 50], and [createPool("big", 100)] on it succeeds with a
    pool of size 100: [createPool] never reads [maxPoolSize].  (A pool
    created without a size does get size 10.) *)
Theorem createPool_exceeds_maxPoolSize :
  maxPoolSize (constructor no_options) = 50 /\
  (exists pool rp',
     createPool (constructor no_options) "small" None = (rp', Returned pool) /\
     size pool = 10) /\
  exists pool rp',
    createPool (constructor no_options) "big" (Some 100) = (rp', Returned pool) /\
    pools rp' !! "big"%string = Some pool /\
    maxPoolSize rp' = 50 /\
    size pool = 100 /\
    ~ size pool <= maxPoolSize rp'.
Proof.
  split; [reflexivity|]. split; [apply createPool_default_size|].
  eexists. eexists. split; [reflexivity|].
  split; [reflexivity|]. cbn. repeat split. lia.
Qed.

(** C10. For a name that no pool is registered under, [getPoolStats]
    returns [null]: it does not throw, it returns no stats record, and the
    registry and its pools are what they were. *)
Theorem getPoolStats_unregistered (rp : ResourcePool.t) (poolName : string) :
  pools rp !! poolName = None ->
  getPoolStats rp poolName = (rp, Returned None) /\
  (forall msg, snd (getPoolStats rp poolName) <> Threw msg) /\
  (forall stats, snd (getPoolStats rp poolName) <> Returned (Some stats)) /\
  pools (fst (getPoolStats rp poolName)) = pools rp.
Proof.
  intros Hnone. unfold getPoolStats. rewrite Hnone. cbn.
  repeat split; intros; discriminate.
Qed.

Lemma getPoolStats_unregistered_witness :
  let rp := fst (createPool (constructor no_options) "read" (Some 20)) in
  getPoolStats rp "write" = (rp, Returned None).
Proof.
  intros rp.
  apply (getPoolStats_unregistered rp "write"). reflexivity.
Defined.

(** A registered pool does get a record. *)
Lemma getPoolStats_registered (rp : ResourcePool.t) (poolName : string)
    (pool : Pool) :
  pools rp !! poolName = Some pool ->
  exists stats,
    getPoolStats rp poolName = (rp, Returned (Some stats)) /\
    stat_size stats = size pool /\
    stat_available stats = available pool /\
    stat_active stats = active pool /\
    stat_waiting stats = length (waiting pool).
Proof.
  intros Hsome. unfold getPoolStats. rewrite Hsome.
  eexists. split; [reflexivity|]. cbn. auto.
Qed.

(** *** What the wait queue holds, and what the timer looks for *)

Lemma waitForResource_queues_waiters (pool : Pool) (call : nat) :
  Forall is_waiter (waiting pool) ->
  Forall is_waiter (waiting (fst (waitForResource pool call))).
Proof.
  intros Hq. unfold waitForResource.
  destruct (0 <? available pool); cbn; [exact Hq|].
  apply Forall_app. split; [exact Hq|]. repeat constructor.
Qed.

Lemma indexOf_resolve_absent (l : list Fn) (call : nat) :
  Forall is_waiter l -> indexOf l (Resolve call) = -1.
Proof.
  induction 1 as [|f l Hf _ IH]; [reflexivity|].
  cbn. destruct (decide (f = Resolve call)) as [->|_]; [contradiction|].
  rewrite IH. reflexivity.
Qed.

(** The timer callback never removes anything from a queue of waiters: it
    searches the queue for [resolve], which was never pushed. *)
Lemma onTimer_removes_nothing (pool : Pool) (call : nat) :
  Forall is_waiter (waiting pool) -> onTimer pool call = pool.
Proof.
  intros Hq. unfold onTimer. rewrite (indexOf_resolve_absent _ _ Hq).
  reflexivity.
Qed.

(** A release that finds a waiter hands it the slot and takes one more from
    [available]: the sum of the two counters drops by one. *)
Lemma releaseResource_handoff (pool : Pool) (call : nat) (rest : list Fn) :
  waiting pool = Waiter call :: rest ->
  let pool' := fst (releaseResource pool) in
  snd (releaseResource pool) = Some call /\
  waiting pool' = rest /\
  active pool' = active pool /\
  available pool' = available pool - 1.
Proof.
  intros Hq. unfold releaseResource. cbn. rewrite Hq. cbn.
  repeat split; lia.
Qed.

Lemma releaseResource_idle (pool : Pool) :
  waiting pool = [] ->
  let pool' := fst (releaseResource pool) in
  snd (releaseResource pool) = None /\
  active pool' = active pool - 1 /\
  available pool' = available pool + 1.
Proof.
  intros Hq. unfold releaseResource. cbn. rewrite Hq. cbn. auto.
Qed.

(** *** Runs on a pool of one slot *)

(** C3, evaluated on the code. Call 1 times out at 60 while call 0 holds
    the slot.  It fails with the timeout error, but the counters are not
    what they were: [available] goes from 0 to -1.  The timer callback has
    left the waiter in the queue; the [finally] block of the timed-out call
    then releases a slot the call never held and hands it to that stale
    waiter. *)
Theorem timed_out_acquire_changes_counters :
  exists before final : World unit string,
    steps (W 1) saturated = Some before /\
    step before (Timeout 1 (60 # 1)) = Some final /\
    counters before = Some (0, 1, [Waiter 1%nat]) /\
    result_of final 1%nat = Some (Threw (Error (PoolTimeoutError "db"))) /\
    option_map (fun p => onTimer p 1%nat) (pool_of before "db")
      = pool_of before "db" /\
    counters final = Some (-1, 1, []) /\
    counters final <> counters (W 1) /\
    option_map (fun c => fst (fst c)) (counters final)
      <> option_map (fun c => fst (fst c)) (counters before).
Proof.
  eexists. eexists.
  split; [vm_compute; reflexivity|].
  split; [vm_compute; reflexivity|].
  repeat split; try (vm_compute; reflexivity); vm_compute; discriminate.
Qed.

(** With an earlier waiter (call 2) queued in front, the time-out of call 1
    wakes call 2 although call 0 still holds the only slot, and the waiter
    of call 1 stays in the queue after call 1 has failed. *)
Lemma timed_out_waiter_stays_queued :
  exists final : World unit string,
    steps (W 1)
      [Acquire 0 "db" None 0; Acquire 2 "db" None (5 # 1);
       Acquire 1 "db" (Some (50 # 1)) (10 # 1); Timeout 1 (60 # 1)]
      = Some final /\
    result_of final 1%nat = Some (Threw (Error (PoolTimeoutError "db"))) /\
    counters final = Some (-1, 1, [Waiter 1%nat]) /\
    option_map phase (calls final !! 0%nat) = Some Holding /\
    option_map phase (calls final !! 2%nat) = Some Holding.
Proof.
  eexists. split; [vm_compute; reflexivity|].
  repeat split; vm_compute; reflexivity.
Qed.

(** C4, evaluated on the code. On a pool of capacity 1: call 0 acquires,
    call 1 queues, call 0 completes.  The hand-off to call 1 leaves
    [available = -1]; when call 1 completes too the pool is at rest with
    [available + active = 0], not 1. *)
Theorem handoff_breaks_capacity_invariant :
  exists handed final : World unit string,
    steps (W 1) (saturated ++ [Complete 0 (Returned tt) (20 # 1)])
      = Some handed /\
    step handed (Complete 1 (Returned tt) (30 # 1)) = Some final /\
    counters (W 1) = Some (1, 0, []) /\
    counters handed = Some (-1, 1, []) /\
    option_map phase (calls handed !! 1%nat) = Some Holding /\
    counters final = Some (0, 0, []) /\
    at_rest final /\
    option_map size (pool_of final "db") = Some 1.
Proof.
  eexists. eexists.
  split; [vm_compute; reflexivity|].
  split; [vm_compute; reflexivity|].
  repeat split; try (vm_compute; reflexivity).
  apply (bool_decide_unpack (map_Forall (fun _ a => settled a = true) _)).
  vm_compute. exact I.
Qed.

End ResourcePoolFacts.

(** ** CircuitBreaker: further properties of the code *)

Module CircuitBreakerMore.
Import Js CircuitBreaker Claims Scenarios.Breaker CircuitBreakerFacts.

(** With a monitor that returns normally [execute_monitored] is
    [execute]. *)
Lemma execute_monitored_returning {A E M : Type}
    (b : CircuitBreaker.t) (c : Call A E) :
  let x := execute_monitored (M := M) b c
             {| monitor_at_success := None; monitor_at_failure := None |} in
  after_m x = after (execute b c) /\
  invoked_m x = invoked (execute b c) /\
  monitored_m x = monitored (execute b c) /\
  outcome_m x =
    match outcome (execute b c) with
    | Returned a => Returned a
    | Threw (Error msg) => Threw (Error msg)
    | Threw (Raised e) => Threw (Raised (inl e))
    end.
Proof.
  unfold execute_monitored, execute, caught_by_execute, settle.
  destruct (enter b (at_call c)) as [passed|msg]; [|cbn; auto].
  destruct (operation c) as [a|e]; cbn; [auto|].
  destruct (onFailure passed (on_fail c)) as [b' ev]. cbn. auto.
Qed.

(** X1. [execute] either fails fast or settles the operation.  It throws
    the [Circuit breaker is OPEN] error, leaving the breaker as it was and
    the operation and the monitor uncalled, exactly when the breaker is open
    and the clock is before [nextAttempt].  Otherwise it invokes the
    operation.  A result whose [monitor("success")] call returns is returned
    unchanged, with the breaker closed, the count reset and the monitor
    called once.  If that monitor call throws, the call is handled as a
    failure: the count goes from 0 to 1, the monitor is called a second
    time, and [execute] rejects with what the monitor threw.  An error of
    the operation raises the count by one, calls the monitor once, and is
    rethrown unchanged unless the monitor throws, whose error then replaces
    it. *)
Theorem execute_monitored_rejects_or_settles {A E M : Type}
    (b : CircuitBreaker.t) (c : Call A E) (mon : Monitor M) :
  let x := execute_monitored b c mon in
  (state b = OPEN /\ (at_call c < nextAttempt b)%Q /\
   x = {| after_m := b; invoked_m := false; monitored_m := [];
          outcome_m := Threw (Error CircuitOpenError) |})
  \/
  (~ (state b = OPEN /\ (at_call c < nextAttempt b)%Q) /\
   invoked_m x = true /\
   failureThreshold (after_m x) = failureThreshold b /\
   match operation c, monitor_at_success mon with
   | Returned a, None =>
       outcome_m x = Returned a /\
       state (after_m x) = CLOSED /\
       failureCount (after_m x) = 0 /\
       monitored_m x = [MonSuccess]
   | Returned a, Some m =>
       outcome_m x
         = Threw (Raised (inr match monitor_at_failure mon with
                              | None => m
                              | Some m' => m'
                              end)) /\
       failureCount (after_m x) = 1 /\
       lastFailureTime (after_m x) = Some (at_failure (on_fail c)) /\
       length (monitored_m x) = 2%nat
   | Threw e, _ =>
       outcome_m x
         = Threw (Raised match monitor_at_failure mon with
                         | None => inl e
                         | Some m' => inr m'
                         end) /\
       failureCount (after_m x) = failureCount b + 1 /\
       lastFailureTime (after_m x) = Some (at_failure (on_fail c)) /\
       length (monitored_m x) = 1%nat
   end).
Proof.
  intros x. unfold x, execute_monitored.
  assert (Hent : (state b = OPEN /\ (at_call c < nextAttempt b)%Q /\
                  enter b (at_call c) = Threw CircuitOpenError) \/
                 (~ (state b = OPEN /\ (at_call c < nextAttempt b)%Q) /\
                  exists passed, enter b (at_call c) = Returned passed /\
                    failureCount passed = failureCount b /\
                    failureThreshold passed = failureThreshold b)).
  { unfold enter. destruct (state b) eqn:Hs.
    - right. split; [intros [? _]; discriminate|]. eauto.
    - destruct (Qltb (at_call c) (nextAttempt b)) eqn:Hlt.
      + left. split; [reflexivity|]. split; [apply Qltb_lt; exact Hlt|].
        reflexivity.
      + right. split.
        * intros [_ Hnow]. apply Qltb_lt in Hnow. congruence.
        * eexists. split; [reflexivity|]. cbn. auto.
    - right. split; [intros [? _]; discriminate|]. eauto. }
  destruct Hent as [(Hs & Hlt & ->)|(Hgate & passed & -> & Hfc & HT)].
  - left. auto.
  - right. split; [exact Hgate|].
    destruct (operation c) as [a|e].
    + cbn [onSuccess].
      destruct (monitor_at_success mon) as [m|]; cbn.
      * unfold caught_by_execute, onFailure. cbn.
        destruct (failureThreshold passed <=? 0 + 1); cbn;
          (split; [reflexivity|]); (split; [exact HT|]);
          destruct (monitor_at_failure mon); auto.
      * split; [reflexivity|]. split; [exact HT|]. auto.
    + unfold caught_by_execute, onFailure. cbn. rewrite Hfc, HT.
      destruct (failureThreshold b <=? failureCount b + 1); cbn;
        (split; [reflexivity|]); (split; [reflexivity|]);
        destruct (monitor_at_success mon), (monitor_at_failure mon); auto.
Qed.

(** *** What holds in every reachable state *)

Lemma step_tight (w w' : World) (e : Event) :
  step w e = Some w' -> tight w -> tight w'.
Proof.
  unfold tight. intros Hstep (HT & H0 & Hc & Ho).
  destruct e as [now| |env]; unfold step in Hstep.
  - unfold enter in Hstep.
    destruct (state (cb w)) eqn:Hs.
    + injection Hstep as <-. cbn. rewrite Hs. auto.
    + destruct (Qltb now (nextAttempt (cb w))); injection Hstep as <-; cbn.
      * rewrite Hs. auto.
      * repeat split; try assumption; [discriminate|].
        intros _. apply Ho. discriminate.
    + injection Hstep as <-. cbn. rewrite Hs. auto.
  - destruct (inFlight w); [discriminate|].
    injection Hstep as <-. cbn.
    repeat split; try lia. intros Hne. contradiction.
  - destruct (inFlight w); [discriminate|].
    unfold onFailure in Hstep. cbn in Hstep.
    destruct (failureThreshold (cb w) <=? failureCount (cb w) + 1) eqn:Hcmp;
      injection Hstep as <-; cbn.
    + apply Z.leb_le in Hcmp.
      repeat split; try lia. discriminate.
    + apply Z.leb_gt in Hcmp.
      repeat split; try lia.
      intros Hne. specialize (Ho Hne). lia.
Qed.

Lemma reachable_tight (w0 w : World) :
  tight w0 -> reachable w0 w -> tight w.
Proof.
  intros H0 Hr. induction Hr as [|w e w' _ IH Hstep].
  - exact H0.
  - exact (step_tight _ _ _ Hstep IH).
Qed.

Lemma steps_reachable (es : list Event) : forall w0 w1 w : World,
  reachable w0 w1 -> steps w1 es = Some w -> reachable w0 w.
Proof.
  induction es as [|e es IH]; intros w0 w1 w Hr Hs; cbn in Hs.
  - injection Hs as <-. exact Hr.
  - destruct (step w1 e) as [w2|] eqn:He; [|discriminate].
    apply (IH w0 w2 w); [|exact Hs].
    eapply reach_step; [exact Hr|exact He].
Qed.

(** X2. For a breaker constructed with a positive threshold, in every state
    reached by any interleaving of calls: the breaker is closed exactly when
    [failureCount < failureThreshold], the count is not negative, and a
    failure settling there never leaves the breaker half-open: if it was
    open or half-open it is open afterwards. *)
Theorem closed_iff_below_threshold (options : Options) (now : Q) (w : World) :
  0 < failureThreshold (constructor options now) ->
  reachable (boot options now) w ->
  (state (cb w) = CLOSED <-> failureCount (cb w) < failureThreshold (cb w)) /\
  0 <= failureCount (cb w) /\
  forall env w',
    step w (Fail env) = Some w' ->
    state (cb w') <> HALF_OPEN /\
    (state (cb w) <> CLOSED -> state (cb w') = OPEN) /\
    failureCount (cb w') = failureCount (cb w) + 1.
Proof.
  intros HT Hr.
  assert (H0 : tight (boot options now)).
  { unfold tight. cbn.
    split; [exact HT|]. split; [lia|].
    split; [intros _; exact HT|intros Hne; contradiction]. }
  destruct (reachable_tight _ _ H0 Hr) as (HTw & Hfc & Hc & Ho).
  split; [|split; [exact Hfc|]].
  - split; [exact Hc|].
    intros Hlt. destruct (state (cb w)) eqn:Hs; [reflexivity| |];
      (assert (Hge : failureThreshold (cb w) <= failureCount (cb w))
         by (apply Ho; discriminate)); lia.
  - intros env w' Hstep. unfold step in Hstep.
    destruct (inFlight w); [discriminate|].
    unfold onFailure in Hstep. cbn in Hstep.
    destruct (failureThreshold (cb w) <=? failureCount (cb w) + 1) eqn:Hcmp;
      injection Hstep as <-; cbn.
    + split; [discriminate|]. split; [intros _; reflexivity|reflexivity].
    + apply Z.leb_gt in Hcmp.
      assert (Hcl : state (cb w) = CLOSED).
      { destruct (state (cb w)) eqn:Hs; [reflexivity| |];
          (assert (Hge : failureThreshold (cb w) <= failureCount (cb w))
             by (apply Ho; discriminate)); lia. }
      rewrite Hcl. split; [discriminate|].
      split; [intros Hne; contradiction|reflexivity].
Qed.

Lemma closed_iff_below_threshold_witness :
  state (cb probing_world) = CLOSED
  <-> failureCount (cb probing_world) < failureThreshold (cb probing_world).
Proof.
  apply (closed_iff_below_threshold one_strike 0 probing_world).
  - reflexivity.
  - apply (steps_reachable probing (boot one_strike 0) (boot one_strike 0)).
    + apply reach_here.
    + reflexivity.
Defined.

Lemma monitored_accounting {M : Type} (es : list (MonitoredEvent M)) :
  forall w0 w : World,
    steps_monitored w0 es = Some w ->
    (invoked_total w + inFlight w0
     = invoked_total w0 + inFlight w + settlements es)%nat /\
    length (monitor_log w)
    = (length (monitor_log w0) + settlements es + thrown_at_success es)%nat.
Proof.
  unfold settlements, thrown_at_success.
  induction es as [|e es IH]; intros w0 w Hs; cbn in Hs.
  - injection Hs as <-. cbn. lia.
  - destruct (step_monitored w0 e) as [w1|] eqn:He; [|discriminate].
    destruct (IH w1 w Hs) as [IH1 IH2]. rewrite IH2. clear IH Hs.
    destruct e as [at_ms|mon env|env mon];
      unfold step_monitored, step in He;
      cbn [List.filter is_settlement throws_at_success length].
    + destruct (enter (cb w0) at_ms); injection He as <-; cbn in *; lia.
    + destruct (inFlight w0) eqn:Hfl; [discriminate|].
      destruct (onSuccess (cb w0)) as [b1 ev1].
      destruct (monitor_at_success mon).
      * destruct (onFailure b1 env) as [b2 ev2].
        injection He as <-. cbn in *. rewrite length_app. cbn. lia.
      * injection He as <-. cbn in *. rewrite length_app. cbn. lia.
    + destruct (inFlight w0) eqn:Hfl; [discriminate|].
      destruct (onFailure (cb w0) env) as [b' ev].
      injection He as <-. cbn in *. rewrite length_app. cbn. lia.
Qed.

(** X3. After any interleaving of arrivals and settlements on a new breaker,
    the operations invoked are those still in flight plus those settled, and
    the monitor has been called once for every settled operation and once
    more for every success on which it threw; with a monitor that never
    throws on success that is exactly once per settled operation.  Arrivals,
    served or rejected, do not call it. *)
Theorem monitor_calls_accounted {M : Type} (options : Options) (now : Q)
    (es : list (MonitoredEvent M)) (w : World) :
  steps_monitored (boot options now) es = Some w ->
  invoked_total w = (inFlight w + settlements es)%nat /\
  length (monitor_log w) = (settlements es + thrown_at_success es)%nat /\
  (thrown_at_success es = 0%nat ->
     invoked_total w = (inFlight w + length (monitor_log w))%nat).
Proof.
  intros Hs. destruct (monitored_accounting es _ _ Hs) as [H1 H2].
  cbn in H1, H2. repeat split; lia.
Qed.

Lemma monitor_calls_accounted_witness :
  exists w,
    steps_monitored (boot one_strike 0) monitor_throws_on_success = Some w /\
    invoked_total w = 1%nat /\ inFlight w = 0%nat /\
    length (monitor_log w) = 2%nat.
Proof.
  eexists. split; [reflexivity|].
  destruct (monitor_calls_accounted one_strike 0 monitor_throws_on_success _
              eq_refl) as (H1 & H2 & _).
  split; [reflexivity|]. split; [reflexivity|]. rewrite H2. reflexivity.
Defined.

(** *** Growth of the backoff delay *)

(** X4. One more failure doubles the exponential part while it is under the cap
    (fewer than 6 failures past the threshold), and then any delay, with any
    jitter, is longer than any delay before it; from 6 failures past the
    threshold on the exponential part stays at [64 * timeout]. *)
Theorem backoff_doubles_up_to_the_cap (b b' : CircuitBreaker.t) (r r' : Q) :
  timeout b' = timeout b ->
  failureThreshold b' = failureThreshold b ->
  failureCount b' = failureCount b + 1 ->
  failureThreshold b <= failureCount b ->
  (0 < timeout b)%Q ->
  (0 <= r)%Q -> (r < 1)%Q -> (0 <= r')%Q -> (r' < 1)%Q ->
  (failureCount b - failureThreshold b < 6 ->
     (exponentialDelay b' == 2 * exponentialDelay b)%Q /\
     (getBackoffDelay b r < getBackoffDelay b' r')%Q) /\
  (6 <= failureCount b - failureThreshold b ->
     (exponentialDelay b == 64 * timeout b)%Q /\
     (exponentialDelay b' == 64 * timeout b)%Q).
Proof.
  intros Hto HT Hfc Hge Hpos Hr0 Hr1 Hr0' Hr1'.
  unfold getBackoffDelay, jitter, exponentialDelay.
  rewrite Hto, HT, Hfc. split.
  - intros Hlt.
    rewrite !Z.min_l by lia.
    replace (failureCount b + 1 - failureThreshold b)
      with (failureCount b - failureThreshold b + 1) by lia.
    set (k := failureCount b - failureThreshold b).
    assert (Hk : 0 <= k <= 6) by (unfold k; lia).
    destruct (pow2_capped k Hk) as [Hlo _].
    assert (Hdouble : (2 ^ (k + 1) == 2 * 2 ^ k)%Q).
    { rewrite Qpower_plus by discriminate.
      change (2 ^ 1)%Q with 2%Q. ring. }
    rewrite Hdouble.
    set (p := (2 ^ k)%Q) in *.
    assert (Hexp : (0 < timeout b * p)%Q) by nra.
    split; [ring|]. nra.
  - intros Hcap.
    rewrite !Z.min_r by lia.
    split; (change (2 ^ 6)%Q with 64%Q; ring).
Qed.

Lemma backoff_doubles_up_to_the_cap_witness :
  let b := {| failureThreshold := 3; timeout := 1000 # 1; state := OPEN;
              failureCount := 4; lastFailureTime := None; nextAttempt := 0 |} in
  let b' := {| failureThreshold := 3; timeout := 1000 # 1; state := OPEN;
               failureCount := 5; lastFailureTime := None; nextAttempt := 0 |} in
  (getBackoffDelay b (9 # 10) < getBackoffDelay b' 0)%Q.
Proof.
  intros b b'.
  apply (backoff_doubles_up_to_the_cap b b' (9 # 10) 0);
    try reflexivity; vm_compute; congruence.
Defined.

(** *** The cool-down *)

Section CoolDown.
Context {A E : Type}.
Implicit Types (b : CircuitBreaker.t) (c next : Call A E).

(** X5. When a failing call takes the count to the threshold or beyond (as the
    T-th failure of a closed breaker and every failed half-open trial do),
    the breaker opens with [nextAttempt] at least [timeout] after the clock
    reading of that failure; a call made next, on the state this failure
    left (no other call settling in between), is rejected without invoking
    the operation if it arrives before that much time has passed.  Needs a
    positive [timeout] and a non-negative [Math.random()]. *)
Theorem opening_shuts_the_gate_for_timeout b c next :
  state b <> OPEN ->
  fails c ->
  failureThreshold b <= failureCount b + 1 ->
  (0 < timeout b)%Q ->
  (0 <= random (on_fail c))%Q ->
  (at_call next < at_open (on_fail c) + timeout b)%Q ->
  let opened := after (execute b c) in
  state opened = OPEN /\
  (at_open (on_fail c) + timeout b <= nextAttempt opened)%Q /\
  execute opened next =
    {| after := opened; invoked := false; monitored := [];
       outcome := Threw (Error CircuitOpenError) |}.
Proof.
  intros Hs Hc Hcross Hpos Hrnd Hnext opened.
  assert (Hafter : opened = fst (onFailure b (on_fail c))).
  { unfold opened, execute, enter, fails in *.
    destruct (operation c) as [a|e]; [contradiction|].
    destruct (state b); try contradiction; reflexivity. }
  assert (Hcmp : (failureThreshold b <=? failureCount b + 1) = true)
    by (apply Z.leb_le; exact Hcross).
  assert (Hopen : state opened = OPEN).
  { rewrite Hafter. unfold onFailure. cbn. rewrite Hcmp. reflexivity. }
  assert (Hnext' : (at_open (on_fail c) + timeout b <= nextAttempt opened)%Q).
  { rewrite Hafter. unfold onFailure. cbn. rewrite Hcmp. cbn.
    unfold getBackoffDelay, jitter, exponentialDelay. cbn.
    set (k := Z.min (failureCount b + 1 - failureThreshold b) 6).
    assert (Hk : 0 <= k <= 6) by (unfold k; lia).
    destruct (pow2_capped k Hk) as [Hlo _].
    set (p := (2 ^ k)%Q) in *.
    assert (Hexp : (timeout b <= timeout b * p)%Q) by nra.
    assert (Hj : (0 <= random (on_fail c) * (1 # 10) * (timeout b * p))%Q).
    { apply Qmult_le_0_compat; [|lra].
      apply Qmult_le_0_compat; [exact Hrnd|discriminate]. }
    lra. }
  split; [exact Hopen|]. split; [exact Hnext'|].
  apply execute_rejected; [exact Hopen|].
  eapply Qlt_le_trans; [exact Hnext|exact Hnext'].
Qed.

End CoolDown.

Lemma opening_shuts_the_gate_for_timeout_witness :
  let opened :=
    after (execute (after (execute two_strikes (failing_call 0)))
             (failing_call 1)) in
  execute opened (failing_call 1000) =
    {| after := opened; invoked := false; monitored := [];
       outcome := Threw (Error CircuitOpenError) |}.
Proof.
  intros opened.
  apply (opening_shuts_the_gate_for_timeout
           (after (execute two_strikes (failing_call 0)))
           (failing_call 1) (failing_call 1000)).
  - discriminate.
  - exact I.
  - vm_compute. discriminate.
  - reflexivity.
  - vm_compute. discriminate.
  - reflexivity.
Defined.


(** The same for a successful operation under a monitor that may throw. *)
Lemma execute_monitored_success {A E M : Type} (b : CircuitBreaker.t)
    (c : Call A E) (mon : Monitor M) (a : A) :
  ~ (state b = OPEN /\ (at_call c < nextAttempt b)%Q) ->
  operation c = Returned a ->
  let x := execute_monitored b c mon in
  invoked_m x = true /\
  match monitor_at_success mon with
  | None =>
      outcome_m x = Returned a /\
      state (after_m x) = CLOSED /\ failureCount (after_m x) = 0
  | Some m =>
      outcome_m x
        = Threw (Raised (inr match monitor_at_failure mon with
                             | None => m
                             | Some m' => m'
                             end)) /\
      failureCount (after_m x) = 1
  end.
Proof.
  intros Hgate Hop x. unfold x, execute_monitored. rewrite Hop.
  assert (Hent : exists passed, enter b (at_call c) = Returned passed).
  { unfold enter. destruct (state b) eqn:Hs; eauto.
    destruct (Qltb (at_call c) (nextAttempt b)) eqn:Hlt; eauto.
    exfalso. apply Hgate. split; [reflexivity|]. apply Qltb_lt. exact Hlt. }
  destruct Hent as (passed & ->). cbn [onSuccess].
  destruct (monitor_at_success mon) as [m|]; cbn; [|auto].
  unfold caught_by_execute, onFailure. cbn.
  destruct (failureThreshold passed <=? 0 + 1); cbn;
    destruct (monitor_at_failure mon); auto.
Qed.

End CircuitBreakerMore.

(** ** Retry and [makeRequest]: further properties of the code *)

Module RetryMore.
Import Js ResilientServiceClient Scenarios.Client RetryFacts.

Section FirstSuccess.
Context {A E : Type}.
Variable opts : RetryOptions.
Variable operation : Z -> Outcome A E.
Variable err : Z -> E.
Variable last : Z.
Variable a : A.
Hypothesis in_budget : last <= maxRetries opts.
Hypothesis fails_before :
  forall i, 0 <= i < last -> operation i = Threw (err i).
Hypothesis succeeds : operation last = Returned a.

Lemma loop_succeeds (n : nat) : forall attempt lastError trace,
  0 <= attempt ->
  attempt + Z.of_nat n = last ->
  loop opts operation attempt lastError trace =
  (trace ++ remaining opts attempt n, Returned a).
Proof.
  induction n as [|n IH]; intros attempt lastError trace Hpos Hn;
    rewrite loop_turn.
  - assert (Ha : attempt = last) by lia. subst attempt.
    rewrite (proj2 (Z.leb_le _ _) in_budget), succeeds. reflexivity.
  - rewrite (proj2 (Z.leb_le _ _)) by lia.
    rewrite fails_before by lia.
    rewrite (proj2 (Z.eqb_neq _ _)) by lia.
    rewrite IH by lia. cbn [remaining].
    rewrite <- app_assoc. reflexivity.
Qed.

Lemma retry_first_success :
  0 <= last ->
  retryWithBackoff opts operation
  = (exhausted_trace opts (Z.to_nat last), Returned a).
Proof.
  intros Hpos. unfold retryWithBackoff.
  rewrite (loop_succeeds (Z.to_nat last)) by lia.
  rewrite remaining_exhausted. reflexivity.
Qed.

End FirstSuccess.

(** X6. [retryWithBackoff] stops at the first success.  If the attempts before
    attempt [k <= maxRetries] fail and attempt [k] returns [a], the run
    returns [a] after exactly [k + 1] invocations and [k] sleeps, the same
    sleeps as an exhausted run makes before attempt [k]; nothing is invoked
    after the success. *)
Theorem retry_stops_at_first_success {A E : Type} (opts : RetryOptions)
    (operation : Z -> Outcome A E) (err : Z -> E) (k : nat) (a : A) :
  Z.of_nat k <= maxRetries opts ->
  (forall i, 0 <= i < Z.of_nat k -> operation i = Threw (err i)) ->
  operation (Z.of_nat k) = Returned a ->
  let done := retryWithBackoff opts operation in
  snd done = Returned a /\
  fst done = exhausted_trace opts k /\
  attempts_of (fst done) = map Z.of_nat (seq 0 (S k)) /\
  delays_of (fst done) =
    map (fun i => (initialDelay opts * backoffMultiplier opts ^ (Z.of_nat i - 1))%Q)
        (seq 1 k).
Proof.
  intros Hk Hfail Hok done. unfold done.
  rewrite (retry_first_success opts operation err (Z.of_nat k) a Hk Hfail Hok)
    by lia.
  rewrite Nat2Z.id. cbn [fst snd].
  rewrite attempts_of_exhausted, delays_of_exhausted. auto.
Qed.

Lemma retry_stops_at_first_success_witness :
  retryWithBackoff defaults
    (fun i => if i <? 2 then Threw "reset"%string else Returned i)
  = ([Attempt 0; Sleep (100 # 1); Attempt 1; Sleep (200 # 1); Attempt 2],
     Returned 2).
Proof.
  pose proof (retry_stops_at_first_success defaults
                (fun i => if i <? 2 then Threw "reset"%string else Returned i)
                (fun _ => "reset"%string) 2 2) as H.
  cbn zeta in H.
  destruct H as (Hres & Htrace & _).
  - vm_compute. discriminate.
  - intros i Hi. rewrite (proj2 (Z.ltb_lt _ _)) by lia. reflexivity.
  - reflexivity.
  - rewrite (surjective_pairing (retryWithBackoff _ _)), Hres, Htrace.
    reflexivity.
Defined.

(** X7. With a negative [maxRetries] the loop body never runs: the operation is
    not invoked at all and [undefined] is thrown. *)
Theorem retry_with_negative_budget {A E : Type} (opts : RetryOptions)
    (operation : Z -> Outcome A E) :
  maxRetries opts < 0 ->
  retryWithBackoff opts operation = ([], Threw None).
Proof.
  intros Hneg. unfold retryWithBackoff. rewrite loop_turn.
  rewrite (proj2 (Z.leb_gt _ _)) by lia. reflexivity.
Qed.

Lemma retry_with_negative_budget_witness :
  retryWithBackoff
    (retryOptions {| opt_maxRetries := Some (-1);
                     opt_backoffMultiplier := None;
                     opt_initialDelay := None |})
    unavailable
  = ([], Threw None).
Proof.
  apply (retry_with_negative_budget
           (retryOptions {| opt_maxRetries := Some (-1);
                            opt_backoffMultiplier := None;
                            opt_initialDelay := None |}) unavailable).
  reflexivity.
Defined.

(** X8. The constructor's [options.maxRetries || 3] cannot express "no retry":
    the retry options never hold [maxRetries = 0], and a client configured
    with [maxRetries: 0] (or with none) attempts a failing operation four
    times. *)
Theorem zero_retries_cannot_be_configured {A E : Type}
    (options : ClientOptions) (operation : Z -> Outcome A E) (err : Z -> E) :
  opt_maxRetries options = Some 0 \/ opt_maxRetries options = None ->
  (forall i, operation i = Threw (err i)) ->
  maxRetries (retryOptions options) = 3 /\
  length (attempts_of (fst (retryWithBackoff (retryOptions options) operation)))
    = 4%nat /\
  snd (retryWithBackoff (retryOptions options) operation)
    = Threw (Some (err 3)).
Proof.
  intros Hopt Hfail.
  assert (Hmax : maxRetries (retryOptions options) = 3)
    by (unfold retryOptions; cbn; destruct Hopt as [-> | ->]; reflexivity).
  rewrite (retry_exhausted (retryOptions options) operation err Hfail)
    by (rewrite Hmax; lia).
  rewrite Hmax. cbn [fst snd].
  rewrite attempts_of_exhausted. auto.
Qed.

Lemma zero_retries_cannot_be_configured_witness :
  length (attempts_of (fst (retryWithBackoff
            (retryOptions {| opt_maxRetries := Some 0;
                             opt_backoffMultiplier := None;
                             opt_initialDelay := None |})
            unavailable))) = 4%nat.
Proof.
  apply (zero_retries_cannot_be_configured
           {| opt_maxRetries := Some 0; opt_backoffMultiplier := None;
              opt_initialDelay := None |}
           unavailable (fun _ => "HTTP 503: Service Unavailable"%string)).
  - left. reflexivity.
  - reflexivity.
Defined.

(** X9. With a multiplier of at least 1 and a non-negative initial delay the
    sleeps never get shorter: the sleep after attempt [i + 1] is the sleep
    after attempt [i] times the multiplier. *)
Theorem delay_never_shrinks (opts : RetryOptions) (attempt : Z) :
  0 <= attempt ->
  (1 <= backoffMultiplier opts)%Q ->
  (0 <= initialDelay opts)%Q ->
  (delay opts (attempt + 1) == delay opts attempt * backoffMultiplier opts)%Q /\
  (delay opts attempt <= delay opts (attempt + 1))%Q /\
  (initialDelay opts <= delay opts attempt)%Q.
Proof.
  intros Hpos Hm Hi. unfold delay.
  assert (Hm0 : ~ (backoffMultiplier opts == 0)%Q) by lra.
  assert (Hstep : (backoffMultiplier opts ^ (attempt + 1)
                   == backoffMultiplier opts ^ attempt * backoffMultiplier opts)%Q).
  { rewrite Qpower_plus by exact Hm0.
    change (backoffMultiplier opts ^ 1)%Q
      with (Qpower_positive (backoffMultiplier opts) 1).
    cbn. reflexivity. }
  assert (Hone : (1 <= backoffMultiplier opts ^ attempt)%Q).
  { rewrite <- (Z2Nat.id attempt Hpos).
    generalize (Z.to_nat attempt). intros n.
    induction n as [|n IH]; [discriminate|].
    rewrite Nat2Z.inj_succ. unfold Z.succ.
    rewrite Qpower_plus by exact Hm0.
    change (backoffMultiplier opts ^ 1)%Q
      with (Qpower_positive (backoffMultiplier opts) 1).
    cbn. nra. }
  rewrite Hstep.
  set (p := (backoffMultiplier opts ^ attempt)%Q) in *.
  assert (Hq : (0 <= initialDelay opts * p)%Q) by nra.
  split; [ring|]. split; [|nra].
  assert (Hassoc : (initialDelay opts * (p * backoffMultiplier opts)
                    == initialDelay opts * p * backoffMultiplier opts)%Q) by ring.
  rewrite Hassoc.
  set (q := (initialDelay opts * p)%Q) in *. nra.
Qed.

Lemma delay_never_shrinks_witness :
  (delay defaults 2 <= delay defaults (2 + 1))%Q.
Proof.
  apply (delay_never_shrinks defaults 2); vm_compute; discriminate.
Defined.

(** *** [makeRequest]: the breaker around the retries around [fetch] *)

Section MakeRequest.
Context {J E : Type}.
Implicit Types (c : ResilientServiceClient.t)
  (fetch : Z -> Outcome (Response J E) E) (env : CircuitBreaker.FailureEnv).


(** X11. While the gate is shut [makeRequest] does not call [fetch] at all: it
    throws the [Circuit breaker is OPEN] error and the client is unchanged. *)
Theorem open_breaker_makes_no_fetch c now fetch env :
  gate_shut c now ->
  makeRequest c now fetch env =
    {| client_after := c; fetches := [];
       response := Threw (Error CircuitBreaker.CircuitOpenError) |}.
Proof.
  intros [Hs Hlt]. unfold makeRequest.
  rewrite CircuitBreakerFacts.execute_rejected by assumption.
  cbn. destruct c; reflexivity.
Qed.

(** X12. A request that succeeds on attempt [k <= maxRetries], after [k]
    failed attempts, makes [k + 1] fetches.  If the breaker's monitor
    returns when told of the success, the parsed body is returned and the
    breaker has seen one success: it is closed with [failureCount = 0],
    however many attempts failed.  If the monitor throws there, the request
    is rejected with what the monitor threw although the fetch succeeded,
    and the breaker counts a failure: [failureCount = 1]. *)
Theorem request_succeeding_on_retry c now fetch env
    (M : Type) (mon : CircuitBreaker.Monitor M)
    (err : Z -> Exn E) (k : nat) (body : J) :
  ~ gate_shut c now ->
  Z.of_nat k <= maxRetries (client_retryOptions c) ->
  (forall i, 0 <= i < Z.of_nat k -> request_attempt (fetch i) = Threw (err i)) ->
  request_attempt (fetch (Z.of_nat k)) = Returned body ->
  let r := makeRequest_monitored c now fetch env mon in
  fetches_m r = exhausted_trace (client_retryOptions c) k /\
  length (attempts_of (fetches_m r)) = S k /\
  match CircuitBreaker.monitor_at_success mon with
  | None =>
      response_m r = Returned body /\
      CircuitBreaker.state (circuitBreaker (client_after_m r))
        = CircuitBreaker.CLOSED /\
      CircuitBreaker.failureCount (circuitBreaker (client_after_m r)) = 0
  | Some m =>
      response_m r
        = Threw (Raised (inr match CircuitBreaker.monitor_at_failure mon with
                             | None => m
                             | Some m' => m'
                             end)) /\
      CircuitBreaker.failureCount (circuitBreaker (client_after_m r)) = 1
  end.
Proof.
  intros Hgate Hk Hfail Hok r. unfold r, makeRequest_monitored.
  rewrite (retry_first_success (client_retryOptions c)
             (fun attempt => request_attempt (fetch attempt)) err
             (Z.of_nat k) body Hk Hfail Hok) by lia.
  rewrite Nat2Z.id. cbn [fst snd].
  match goal with |- context [CircuitBreaker.execute_monitored ?b ?call ?m] =>
    destruct (CircuitBreakerMore.execute_monitored_success b call m body
                Hgate eq_refl) as [Hinv Hout]
  end.
  cbn [client_after_m fetches_m response_m circuitBreaker].
  rewrite Hinv, attempts_of_exhausted, length_map, length_seq.
  split; [reflexivity|]. split; [reflexivity|].
  destruct (CircuitBreaker.monitor_at_success mon); exact Hout.
Qed.


End MakeRequest.


Lemma open_breaker_makes_no_fetch_witness :
  makeRequest userService_tripped (100 # 1) flaky_fetch (no_jitter 100) =
    {| client_after := userService_tripped; fetches := [];
       response := Threw (Error "Circuit breaker is OPEN"%string) |}.
Proof.
  apply (open_breaker_makes_no_fetch userService_tripped (100 # 1)
           flaky_fetch (no_jitter 100)).
  split; reflexivity.
Defined.

Lemma request_succeeding_on_retry_witness :
  let quiet := {| CircuitBreaker.monitor_at_success := None;
                  CircuitBreaker.monitor_at_failure := None |} in
  let r := makeRequest_monitored (M := string) userService 0 flaky_fetch
             (no_jitter 100) quiet in
  fetches_m r = [Attempt 0; Sleep (100 # 1); Attempt 1] /\
  response_m r = Returned "{id: 123}"%string /\
  CircuitBreaker.failureCount (circuitBreaker (client_after_m r)) = 0.
Proof.
  intros quiet r.
  pose proof (request_succeeding_on_retry userService 0 flaky_fetch
                (no_jitter 100) string quiet
                (fun _ => Raised "ECONNRESET"%string) 1 "{id: 123}"%string)
    as H.
  cbn zeta in H. fold r in H.
  destruct H as (Htrace & _ & Hres & _ & Hfc).
  - intros [Hopen _]. discriminate Hopen.
  - vm_compute. discriminate.
  - intros i Hi. unfold flaky_fetch.
    rewrite (proj2 (Z.ltb_lt _ _)) by lia. reflexivity.
  - reflexivity.
  - split; [rewrite Htrace; reflexivity|]. split; [exact Hres|exact Hfc].
Defined.


End RetryMore.

(** ** ResourcePool: further properties of the code *)

Module ResourcePoolMore.
Import Js ResourcePool Scenarios.Pools ResourcePoolFacts.

(** *** Registry *)

(** X14. [createPool] on a name that is taken throws [Pool <name> already
    exists] and leaves the registry, and with it the existing pool and its
    counters, as they were. *)
Theorem createPool_duplicate (rp : ResourcePool.t) (poolName : string)
    (requested : option Z) (existing : Pool) :
  pools rp !! poolName = Some existing ->
  createPool rp poolName requested = (rp, Threw (AlreadyExists poolName)) /\
  pools (fst (createPool rp poolName requested)) !! poolName = Some existing.
Proof.
  intros Hsome. unfold createPool. rewrite Hsome. cbn. auto.
Qed.

Lemma createPool_duplicate_witness :
  let rp := fst (createPool (constructor no_options) "read" (Some 20)) in
  createPool rp "read" (Some 7) = (rp, Threw "Pool read already exists"%string).
Proof.
  intros rp.
  eapply (createPool_duplicate rp "read" (Some 7)). reflexivity.
Defined.

Lemma store_lookup (rp : ResourcePool.t) (q : Pool) (k : string) :
  pools (store rp q) !! k
  = if decide (name q = k) then Some q else pools rp !! k.
Proof. unfold store. cbn. apply lookup_insert. Qed.

(** X15. A pool created under a free name can be read back: [getPoolStats]
    reports the requested (or default) size, all of it available, nothing
    active or waiting, zeroed metrics and, for a non-zero size, a
    utilization of 0; the statistics of every other name are unchanged, and
    the name is now taken. *)
Theorem created_pool_is_reported (rp : ResourcePool.t) (poolName : string)
    (requested : option Z) :
  pools rp !! poolName = None ->
  let rp' := fst (createPool rp poolName requested) in
  let n := match requested with Some n => n | None => defaultPoolSize rp end in
  (exists stats,
     getPoolStats rp' poolName = (rp', Returned (Some stats)) /\
     stat_name stats = poolName /\
     stat_size stats = n /\ stat_available stats = n /\
     stat_active stats = 0 /\ stat_waiting stats = 0%nat /\
     stat_metrics stats =
       {| totalRequests := 0; successfulRequests := 0; failedRequests := 0;
          averageWaitTime := 0 |} /\
     (n = 0 -> stat_utilization stats = None) /\
     (n <> 0 -> exists u, stat_utilization stats = Some u /\ (u == 0)%Q)) /\
  (forall other, other <> poolName ->
     stats_value rp' other = stats_value rp other) /\
  snd (createPool rp' poolName requested) = Threw (AlreadyExists poolName).
Proof.
  intros Hnone rp' n.
  assert (Hrp' : rp' = store rp
            {| name := poolName; size := n; available := n; active := 0;
               waiting := [];
               metrics := {| totalRequests := 0; successfulRequests := 0;
                             failedRequests := 0; averageWaitTime := 0 |} |}).
  { unfold rp', createPool. rewrite Hnone. reflexivity. }
  assert (Hget : pools rp' !! poolName = Some
            {| name := poolName; size := n; available := n; active := 0;
               waiting := [];
               metrics := {| totalRequests := 0; successfulRequests := 0;
                             failedRequests := 0; averageWaitTime := 0 |} |}).
  { rewrite Hrp', store_lookup. cbn [name].
    rewrite decide_True by reflexivity. reflexivity. }
  split; [|split].
  - unfold getPoolStats. rewrite Hget. cbn.
    eexists. split; [reflexivity|]. cbn.
    repeat split.
    + intros ->. reflexivity.
    + intros Hn. rewrite (proj2 (Z.eqb_neq n 0) Hn).
      eexists. split; [reflexivity|].
      unfold Qdiv. change (inject_Z 0) with 0%Q. ring.
  - intros other Hne. unfold stats_value, getPoolStats.
    rewrite Hrp', store_lookup. cbn [name].
    rewrite decide_False by congruence.
    destruct (pools rp !! other); reflexivity.
  - unfold createPool at 1. rewrite Hget. reflexivity.
Qed.

Lemma created_pool_is_reported_witness :
  exists stats,
    stats_value (fst (createPool (constructor no_options) "write" (Some 5)))
      "write" = Some stats /\
    stat_size stats = 5 /\ stat_available stats = 5.
Proof.
  destruct (created_pool_is_reported (constructor no_options) "write" (Some 5))
    as ((stats & Hget & _ & Hsize & Havail & _) & _).
  - reflexivity.
  - exists stats. unfold stats_value. rewrite Hget. auto.
Defined.

(** *** The running average *)

(** X17. With at least one request counted, [updateAverageWaitTime] moves the
    average to a value between the old average and the new wait, satisfying
    [avg' * total = avg * (total - 1) + wait]; when the request is the
    first one counted the new average is the wait itself. *)
Theorem average_moves_toward_wait (pool : Pool) (waitTime : Q) :
  1 <= totalRequests (metrics pool) ->
  let avg := averageWaitTime (metrics pool) in
  let avg' := averageWaitTime (metrics (updateAverageWaitTime pool waitTime)) in
  let total := inject_Z (totalRequests (metrics pool)) in
  (avg' * total == avg * (total - 1) + waitTime)%Q /\
  (Qmin avg waitTime <= avg')%Q /\ (avg' <= Qmax avg waitTime)%Q /\
  (totalRequests (metrics pool) = 1 -> (avg' == waitTime)%Q) /\
  totalRequests (metrics (updateAverageWaitTime pool waitTime))
    = totalRequests (metrics pool).
Proof.
  intros Hn avg avg' total.
  assert (Htot : (1 <= total)%Q).
  { unfold total. change 1%Q with (inject_Z 1). rewrite <- Zle_Qle. exact Hn. }
  assert (Hpred : (inject_Z (totalRequests (metrics pool) - 1) == total - 1)%Q).
  { unfold total, Z.sub. rewrite inject_Z_plus. reflexivity. }
  assert (Havg : (avg' == (avg * (total - 1) + waitTime) / total)%Q).
  { unfold avg', updateAverageWaitTime. cbn. fold avg. fold total.
    rewrite Hpred. reflexivity. }
  assert (Hmul : (avg' * total == avg * (total - 1) + waitTime)%Q).
  { rewrite Havg. field. lra. }
  split; [exact Hmul|].
  split; [|split; [|split]].
  - destruct (Q.min_spec avg waitTime) as [[Hlt ->]|[Hle ->]]; nra.
  - destruct (Q.max_spec avg waitTime) as [[Hlt ->]|[Hle ->]]; nra.
  - intros H1. assert (Ht1 : (total == 1)%Q) by (unfold total; rewrite H1; reflexivity).
    rewrite Ht1 in Hmul. lra.
  - reflexivity.
Qed.

Lemma average_moves_toward_wait_witness :
  let pool :=
    {| name := "db"; size := 2; available := 0; active := 2; waiting := [];
       metrics := {| totalRequests := 2; successfulRequests := 1;
                     failedRequests := 0; averageWaitTime := 0 |} |} in
  (averageWaitTime (metrics (updateAverageWaitTime pool (100 # 1))) == 50 # 1)%Q.
Proof.
  intros pool.
  pose proof (average_moves_toward_wait pool (100 # 1)) as H.
  cbn zeta in H. destruct H as (Hmul & _).
  - vm_compute. discriminate.
  - reflexivity.
Defined.

(** *** What one step does to the pools *)

Lemma same_pool_refl (p : Pool) : same_pool p p.
Proof. unfold same_pool. auto. Qed.

Lemma same_pool_trans (p q r : Pool) :
  same_pool p q -> same_pool q r -> same_pool p r.
Proof.
  unfold same_pool. intros (H1 & H2 & H3) (H4 & H5 & H6).
  repeat split; [congruence|congruence|auto].
Qed.

Lemma count_request_same (p : Pool) :
  same_pool p (count_request p) /\ same_counters p (count_request p).
Proof. unfold same_pool, same_counters. cbn. auto 10. Qed.

Lemma count_success_same (p : Pool) :
  same_pool p (count_success p) /\ same_counters p (count_success p).
Proof. unfold same_pool, same_counters. cbn. auto 10. Qed.

Lemma count_failure_same (p : Pool) :
  same_pool p (count_failure p) /\ same_counters p (count_failure p).
Proof. unfold same_pool, same_counters. cbn. auto 10. Qed.

Lemma updateAverageWaitTime_same (p : Pool) (wt : Q) :
  same_pool p (updateAverageWaitTime p wt) /\
  same_counters p (updateAverageWaitTime p wt).
Proof. unfold same_pool, same_counters. cbn. auto 10. Qed.

Lemma onTimer_same (p : Pool) (c : nat) :
  same_pool p (onTimer p c) /\
  available (onTimer p c) = available p /\ active (onTimer p c) = active p.
Proof.
  unfold same_pool, onTimer.
  destruct (-1 <? indexOf (waiting p) (Resolve c)); cbn; [|auto 10].
  repeat split. unfold splice1. intros Hq.
  apply Forall_delete. exact Hq.
Qed.

Lemma waitForResource_same (p : Pool) (c : nat) :
  same_pool p (fst (waitForResource p c)) /\
  ledger (fst (waitForResource p c)) = ledger p.
Proof.
  unfold same_pool, ledger, waitForResource.
  destruct (0 <? available p); cbn.
  - repeat split; [auto|lia].
  - repeat split. intros Hq. apply Forall_app. split; [exact Hq|].
    repeat constructor.
Qed.

Lemma releaseResource_same (p : Pool) :
  same_pool p (fst (releaseResource p)) /\
  ledger (fst (releaseResource p))
  = ledger p - match waiting p with [] => 0 | _ :: _ => 1 end.
Proof.
  unfold same_pool, ledger, releaseResource. cbn.
  destruct (waiting p) as [|f rest] eqn:Hq; cbn.
  - repeat split; rewrite ?Hq; [auto|lia].
  - destruct f as [c|c]; cbn.
    + repeat split; rewrite ?Hq; [|lia].
      intros Hall. inversion Hall; assumption.
    + repeat split; rewrite ?Hq; [|lia].
      intros Hall. inversion Hall; assumption.
Qed.

Section Worlds.
Context {A E : Type}.
Implicit Types (w : World A E) (e : Event A E).

Lemma keyed_store (rp : ResourcePool.t) (q : Pool) :
  keyed rp -> keyed (store rp q).
Proof.
  intros Hk k pool. rewrite store_lookup.
  destruct (decide (name q = k)) as [<-|_]; [intros [= <-]; reflexivity|].
  apply Hk.
Qed.

(** Writing back an updated pool object: the entry under its name is
    replaced, every other entry is untouched. *)
Lemma store_updates (rp : ResourcePool.t) (p q : Pool) (k : string) :
  pools rp !! k = Some p -> name p = k -> name q = name p ->
  forall k' p', pools rp !! k' = Some p' ->
    exists q', pools (store rp q) !! k' = Some q' /\
      (k' = k -> q' = q /\ p' = p) /\ (k' <> k -> q' = p').
Proof.
  intros Hp Hname Hq k' p' Hp'. rewrite store_lookup.
  destruct (decide (name q = k')) as [Heq|Hne].
  - exists q. split; [reflexivity|]. split.
    + intros ->. split; [reflexivity|congruence].
    + intros Hne. congruence.
  - exists p'. split; [exact Hp'|]. split; [|auto].
    intros ->. congruence.
Qed.

Lemma store_keeps_none (rp : ResourcePool.t) (p q : Pool) (k k' : string) :
  pools rp !! k = Some p -> name q = k ->
  pools rp !! k' = None -> pools (store rp q) !! k' = None.
Proof.
  intros Hp Hq Hnone. rewrite store_lookup.
  destruct (decide (name q = k')) as [Heq|_]; [congruence|exact Hnone].
Qed.

(** The continuation of a woken waiter changes metrics only. *)
Lemma resume_pools w woken now :
  keyed (registry w) ->
  (forall k p, pools (registry w) !! k = Some p ->
     exists q, pools (registry (resume w woken now)) !! k = Some q /\
       same_pool p q /\ same_counters p q) /\
  (forall k, pools (registry w) !! k = None ->
     pools (registry (resume w woken now)) !! k = None).
Proof.
  intros Hkey. unfold resume.
  assert (Hsame : (forall k p, pools (registry w) !! k = Some p ->
            exists q, pools (registry w) !! k = Some q /\
              same_pool p q /\ same_counters p q) /\
          (forall k, pools (registry w) !! k = None ->
             pools (registry w) !! k = None)).
  { split; [|auto]. intros k p Hp. exists p.
    split; [exact Hp|]. split; [apply same_pool_refl|].
    unfold same_counters. auto. }
  destruct woken as [c|]; [|exact Hsame].
  destruct (calls w !! c) as [a|]; [|exact Hsame].
  destruct (phase a); try exact Hsame.
  destruct (pools (registry w) !! on_pool a) as [pool|] eqn:Hpool;
    [|exact Hsame].
  pose proof (Hkey _ _ Hpool) as Hname.
  cbn [registry]. split.
  - intros k p Hp.
    destruct (updateAverageWaitTime_same pool (now - startTime a)%Q)
      as [Hsp Hsc].
    destruct (store_updates (registry w) pool
                (updateAverageWaitTime pool (now - startTime a)%Q)
                (on_pool a) Hpool Hname (proj1 Hsp) k p Hp)
      as (q & Hq & Hsame_k & Hother).
    exists q. split; [exact Hq|].
    destruct (decide (k = on_pool a)) as [Heq|Hne].
    + destruct (Hsame_k Heq) as [-> ->]. split; assumption.
    + rewrite (Hother Hne). split; [apply same_pool_refl|].
      unfold same_counters. auto.
  - intros k Hnone.
    apply (store_keeps_none (registry w) pool _ (on_pool a) k Hpool);
      [|exact Hnone].
    cbn. exact Hname.
Qed.

Lemma evolves_keyed (rp rp' : ResourcePool.t) touched delta :
  keyed rp -> evolves rp rp' touched delta -> keyed rp'.
Proof.
  intros Hkey [Hnone Hsome] k q Hq.
  destruct (pools rp !! k) as [p|] eqn:Hp.
  - destruct (Hsome k p Hp) as (q' & Hq' & (Hname & _) & _).
    rewrite Hq in Hq'. injection Hq' as <-. rewrite Hname. apply (Hkey _ _ Hp).
  - rewrite (Hnone k Hp) in Hq. discriminate.
Qed.

Lemma evolves_still (rp : ResourcePool.t) (n : string) delta :
  pools rp !! n = None -> evolves rp rp (Some n) delta.
Proof.
  intros Hn. split; [auto|]. intros k p Hp. exists p.
  split; [exact Hp|]. split; [apply same_pool_refl|].
  split; [intros _; unfold same_counters; auto|].
  intros [= <-]. congruence.
Qed.

Lemma store_evolves (rp : ResourcePool.t) (n : string) (pool P : Pool) delta :
  keyed rp -> pools rp !! n = Some pool ->
  same_pool pool P -> ledger P = ledger pool - delta pool ->
  evolves rp (store rp P) (Some n) delta.
Proof.
  intros Hkey Hpool Hsp Hled.
  pose proof (Hkey _ _ Hpool) as Hname.
  split.
  - intros k Hnone.
    apply (store_keeps_none rp pool P n k Hpool); [|exact Hnone].
    rewrite (proj1 Hsp). exact Hname.
  - intros k p Hp.
    destruct (store_updates rp pool P n Hpool Hname (proj1 Hsp) k p Hp)
      as (q & Hq & Hsame_k & Hother).
    exists q. split; [exact Hq|].
    destruct (decide (k = n)) as [Heq|Hne].
    + destruct (Hsame_k Heq) as [-> ->].
      split; [exact Hsp|]. split; [intros Hc; congruence|].
      intros _. exact Hled.
    + rewrite (Hother Hne). split; [apply same_pool_refl|].
      split; [intros _; unfold same_counters; auto|].
      intros [= <-]. contradiction.
Qed.

Lemma release_and_resume_evolves w (n : string) (pool poolX : Pool) now delta :
  keyed (registry w) ->
  pools (registry w) !! n = Some pool ->
  same_pool pool poolX -> ledger poolX = ledger pool ->
  delta pool = match waiting poolX with [] => 0 | _ :: _ => 1 end ->
  evolves (registry w) (registry (release_and_resume w poolX now))
    (Some n) delta.
Proof.
  intros Hkey Hpool Hsp Hled Hdelta. unfold release_and_resume.
  destruct (releaseResource poolX) as [pool' woken] eqn:Hrel.
  destruct (releaseResource_same poolX) as [Hsp' Hled'].
  rewrite Hrel in Hsp', Hled'. cbn [fst] in Hsp', Hled'.
  assert (Hstore : evolves (registry w) (store (registry w) pool') (Some n) delta).
  { apply (store_evolves _ n pool pool' delta Hkey Hpool).
    - exact (same_pool_trans _ _ _ Hsp Hsp').
    - rewrite Hled', Hled, Hdelta. reflexivity. }
  pose proof (evolves_keyed _ _ _ _ Hkey Hstore) as Hkey'.
  set (w1 := {| registry := store (registry w) pool'; calls := calls w |}).
  destruct (resume_pools w1 woken now Hkey') as [Hrsome Hrnone].
  destruct Hstore as [Hsnone Hssome].
  split.
  - intros k Hnone. apply Hrnone. apply Hsnone. exact Hnone.
  - intros k p Hp.
    destruct (Hssome k p Hp) as (q1 & Hq1 & Hsp1 & Hc1 & Hl1).
    destruct (Hrsome k q1 Hq1) as (q2 & Hq2 & Hsp2 & Hc2).
    exists q2. split; [exact Hq2|].
    split; [exact (same_pool_trans _ _ _ Hsp1 Hsp2)|].
    destruct Hc2 as (Ha & Hb & Hc).
    split.
    + intros Hne. destruct (Hc1 Hne) as (Ha1 & Hb1 & Hc1').
      unfold same_counters. rewrite Ha, Hb, Hc. auto.
    + intros Heq. rewrite <- (Hl1 Heq). unfold ledger. rewrite Ha, Hb.
      reflexivity.
Qed.

(** The master lemma: one step of the pool model. *)
Lemma step_evolves w e w' :
  keyed (registry w) -> step w e = Some w' ->
  evolves (registry w) (registry w') (pool_name_of w e)
    (fun p => if hands_off e p then 1 else 0).
Proof.
  intros Hkey Hstep. destruct e as [c n t now|c now|c r now];
    unfold step in Hstep; cbn [pool_name_of].
  - destruct (calls w !! c); [discriminate|].
    destruct (pools (registry w) !! n) as [pool|] eqn:Hpool.
    + destruct (waitForResource (count_request pool) c) as [pool' got] eqn:Hwait.
      destruct (waitForResource_same (count_request pool) c) as [Hsp Hled].
      rewrite Hwait in Hsp, Hled. cbn [fst] in Hsp, Hled.
      destruct (count_request_same pool) as [Hsp0 (Ha0 & Hb0 & _)].
      assert (Hled0 : ledger pool' = ledger pool - 0).
      { rewrite Hled. unfold ledger. rewrite Ha0, Hb0. lia. }
      destruct got; injection Hstep as <-; cbn [registry].
      * destruct (updateAverageWaitTime_same pool' (now - now)%Q)
          as [Hsp1 (Ha1 & Hb1 & _)].
        apply (store_evolves _ n pool _ _ Hkey Hpool).
        -- exact (same_pool_trans _ _ _ (same_pool_trans _ _ _ Hsp0 Hsp) Hsp1).
        -- cbn [hands_off]. rewrite <- Hled0. unfold ledger.
           rewrite Ha1, Hb1. reflexivity.
      * apply (store_evolves _ n pool _ _ Hkey Hpool).
        -- exact (same_pool_trans _ _ _ Hsp0 Hsp).
        -- exact Hled0.
    + injection Hstep as <-. cbn [registry finish].
      apply evolves_still. exact Hpool.
  - destruct (calls w !! c) as [a|] eqn:Hc; [|discriminate]. cbn [fmap option_fmap option_map].
    destruct (phase a); try discriminate.
    destruct (pools (registry w) !! on_pool a) as [pool|] eqn:Hpool;
      [|discriminate].
    destruct (Qle_bool (deadline a) now); [|discriminate].
    injection Hstep as <-.
    destruct (onTimer_same pool c) as [Hsp1 [Ha1 Hb1]].
    destruct (count_failure_same (onTimer pool c)) as [Hsp2 (Ha2 & Hb2 & Hc2)].
    apply (release_and_resume_evolves
             (finish w c a _) (on_pool a) pool _ now _ Hkey Hpool).
    + exact (same_pool_trans _ _ _ Hsp1 Hsp2).
    + unfold ledger. rewrite Ha2, Hb2, Ha1, Hb1. reflexivity.
    + cbn [hands_off]. rewrite Hc2.
      destruct (waiting (onTimer pool c)); reflexivity.
  - destruct (calls w !! c) as [a|] eqn:Hc; [|discriminate]. cbn [fmap option_fmap option_map].
    destruct (phase a); try discriminate.
    destruct (pools (registry w) !! on_pool a) as [pool|] eqn:Hpool;
      [|discriminate].
    destruct r as [x|err]; injection Hstep as <-.
    + destruct (count_success_same pool) as [Hsp2 (Ha2 & Hb2 & Hc2)].
      apply (release_and_resume_evolves
               (finish w c a _) (on_pool a) pool _ now _ Hkey Hpool).
      * exact Hsp2.
      * unfold ledger. rewrite Ha2, Hb2. reflexivity.
      * cbn [hands_off]. rewrite Hc2. destruct (waiting pool); reflexivity.
    + destruct (count_failure_same pool) as [Hsp2 (Ha2 & Hb2 & Hc2)].
      apply (release_and_resume_evolves
               (finish w c a _) (on_pool a) pool _ now _ Hkey Hpool).
      * exact Hsp2.
      * unfold ledger. rewrite Ha2, Hb2. reflexivity.
      * cbn [hands_off]. rewrite Hc2. destruct (waiting pool); reflexivity.
Qed.

(** X18. The capacity ledger.  One step leaves every pool registered under its
    name with its size.  A pool the step does not work on keeps its counters
    and its queue.  On the pool it works on, [available + active] is
    unchanged by the start of an acquisition and by a release that finds the
    queue empty, and drops by exactly one when the release (after an
    operation or after a time-out) finds a function in the queue. *)
Theorem slots_are_lost_only_on_handoff w e w' (k : string) (pool : Pool) :
  keyed (registry w) ->
  step w e = Some w' ->
  pools (registry w) !! k = Some pool ->
  exists pool',
    pools (registry w') !! k = Some pool' /\
    name pool' = name pool /\ size pool' = size pool /\
    (pool_name_of w e = Some k ->
       ledger pool' = ledger pool - (if hands_off e pool then 1 else 0)) /\
    (pool_name_of w e <> Some k ->
       available pool' = available pool /\ active pool' = active pool /\
       waiting pool' = waiting pool).
Proof.
  intros Hkey Hstep Hpool.
  destruct (step_evolves w e w' Hkey Hstep) as [_ Hsome].
  destruct (Hsome k pool Hpool) as (q & Hq & (Hname & Hsize & _) & Hc & Hl).
  exists q. auto 10.
Qed.

(** X19. An acquisition on a name that is not registered fails at once with
    [Pool <name> does not exist]; no pool and no other acquisition is
    touched and no request is counted. *)
Theorem acquire_on_unknown_pool w (c : nat) (poolName : string)
    (timeout : option Q) (now : Q) :
  calls w !! c = None ->
  pools (registry w) !! poolName = None ->
  exists w',
    step w (Acquire c poolName timeout now) = Some w' /\
    registry w' = registry w /\
    result_of w' c = Some (Threw (Error (PoolNotFoundError poolName))) /\
    forall c', c' <> c -> calls w' !! c' = calls w !! c'.
Proof.
  intros Hc Hp. unfold step. rewrite Hc, Hp.
  eexists. split; [reflexivity|]. split; [reflexivity|]. split.
  - unfold result_of, finish. cbn. rewrite lookup_insert_eq. reflexivity.
  - intros c' Hne. unfold finish. cbn. apply lookup_insert_ne. congruence.
Qed.


(** X21. The wait queue is served from its head.  An acquisition that finds
    no slot free is queued behind the functions already there; and when a
    holder's operation settles while the queue is not empty, the function at
    the head is taken out and called.  If the acquisition that pushed it is
    still waiting, that acquisition, the earliest waiter, starts its
    operation; if it has ended already (a timed-out call leaves its function
    queued), no acquisition is started.  Either way the rest of the queue
    stays in its order, [active] is what it was, [available] is one lower,
    and the holder ends with its operation's outcome. *)
Theorem release_calls_head_of_queue w (h c1 : nat) (k : string)
    (pool : Pool) (ah a1 : Acquisition A E) (rest : list Fn)
    (r : Outcome A E) (now : Q) :
  calls w !! h = Some ah -> phase ah = Holding -> on_pool ah = k ->
  pools (registry w) !! k = Some pool -> name pool = k ->
  waiting pool = Waiter c1 :: rest ->
  calls w !! c1 = Some a1 -> on_pool a1 = k -> c1 <> h ->
  (forall late, available pool <= 0 ->
     waiting (fst (waitForResource pool late)) = waiting pool ++ [Waiter late]) /\
  exists w' pool',
    step w (Complete h r now) = Some w' /\
    calls w' !! c1 =
      Some (match phase a1 with
            | Queued => set_phase Holding a1
            | _ => a1
            end) /\
    pools (registry w') !! k = Some pool' /\
    waiting pool' = rest /\
    active pool' = active pool /\
    available pool' = available pool - 1 /\
    result_of w' h =
      Some (match r with
            | Returned x => Returned x
            | Threw err => Threw (Raised err)
            end) /\
    forall c2, c2 <> h -> c2 <> c1 -> calls w' !! c2 = calls w !! c2.
Proof.
  intros Hh Hph Hoh Hp Hname Hq Hc1 Ho1 Hne.
  split.
  { intros late Hfull. unfold waitForResource.
    rewrite (proj2 (Z.ltb_ge _ _)) by lia. reflexivity. }
  assert (Hrel : forall px, waiting px = Waiter c1 :: rest ->
            releaseResource px =
              (set_counters (available px - 1) (active px - 1 + 1)
                 (set_waiting rest
                    (set_counters (available px) (active px - 1) px)),
               Some c1)).
  { intros px Hpx. unfold releaseResource. cbn. rewrite Hpx. reflexivity. }
  assert (Hgo : forall (res : Outcome A (Exn E)) px,
            name px = k -> waiting px = Waiter c1 :: rest ->
            active px = active pool -> available px = available pool ->
            let w' := release_and_resume (finish w h ah res) px now in
            exists pool',
              calls w' !! c1 =
                Some (match phase a1 with
                      | Queued => set_phase Holding a1
                      | _ => a1
                      end) /\
              pools (registry w') !! k = Some pool' /\
              waiting pool' = rest /\ active pool' = active pool /\
              available pool' = available pool - 1 /\
              result_of w' h = Some res /\
              forall c2, c2 <> h -> c2 <> c1 -> calls w' !! c2 = calls w !! c2).
  { intros res px Hpx Hqx Hax Hvx. unfold release_and_resume.
    rewrite (Hrel px Hqx). unfold resume. cbn [calls registry finish].
    rewrite lookup_insert_ne by congruence. rewrite Hc1, Ho1.
    rewrite store_lookup. cbn [name set_counters set_waiting].
    rewrite decide_True by exact Hpx.
    destruct (phase a1) eqn:Hp1.
    - eexists. split; [apply lookup_insert_eq|].
      split.
      { cbn [registry]. rewrite store_lookup.
        cbn [name updateAverageWaitTime set_metrics set_counters set_waiting].
        rewrite decide_True by exact Hpx. reflexivity. }
      cbn. split; [reflexivity|]. split; [lia|]. split; [lia|]. split.
      + unfold result_of. cbn. rewrite lookup_insert_ne by congruence.
        rewrite lookup_insert_eq. reflexivity.
      + intros c2 H2h H2c. rewrite lookup_insert_ne by congruence.
        apply lookup_insert_ne. congruence.
    - eexists. cbn [calls registry].
      split; [rewrite lookup_insert_ne by congruence; exact Hc1|].
      split.
      { rewrite store_lookup. cbn [name set_counters set_waiting].
        rewrite decide_True by exact Hpx. reflexivity. }
      cbn. split; [reflexivity|]. split; [lia|]. split; [lia|]. split.
      + unfold result_of. cbn. rewrite lookup_insert_eq. reflexivity.
      + intros c2 H2h H2c. apply lookup_insert_ne. congruence.
    - eexists. cbn [calls registry].
      split; [rewrite lookup_insert_ne by congruence; exact Hc1|].
      split.
      { rewrite store_lookup. cbn [name set_counters set_waiting].
        rewrite decide_True by exact Hpx. reflexivity. }
      cbn. split; [reflexivity|]. split; [lia|]. split; [lia|]. split.
      + unfold result_of. cbn. rewrite lookup_insert_eq. reflexivity.
      + intros c2 H2h H2c. apply lookup_insert_ne. congruence. }
  unfold step. rewrite Hh, Hph, Hoh, Hp.
  destruct r as [x|err].
  - destruct (Hgo (Returned x) (count_success pool) Hname Hq eq_refl eq_refl)
      as (pool' & H1 & H2 & H3 & H4 & H5 & H6 & H7).
    eexists. exists pool'. split; [reflexivity|]. auto 10.
  - destruct (Hgo (Threw (Raised err)) (count_failure pool) Hname Hq
                eq_refl eq_refl)
      as (pool' & H1 & H2 & H3 & H4 & H5 & H6 & H7).
    eexists. exists pool'. split; [reflexivity|]. auto 10.
Qed.

(** *** Every reachable state *)

Lemma evolved_reachable w0 w :
  keyed (registry w0) -> reachable w0 w ->
  keyed (registry w) /\
  (forall k, pools (registry w0) !! k = None ->
     pools (registry w) !! k = None) /\
  (forall k p0, pools (registry w0) !! k = Some p0 ->
     exists p, pools (registry w) !! k = Some p /\ same_pool p0 p /\
       ledger p <= ledger p0).
Proof.
  intros Hkey Hr. induction Hr as [|w e w' _ IH Hstep].
  - split; [exact Hkey|]. split; [auto|].
    intros k p0 Hp0. exists p0. split; [exact Hp0|].
    split; [apply same_pool_refl|lia].
  - destruct IH as (Hk & Hnone & Hsome).
    pose proof (step_evolves w e w' Hk Hstep) as Hev.
    split; [exact (evolves_keyed _ _ _ _ Hk Hev)|].
    destruct Hev as [Hnone' Hsome'].
    split; [intros k Hp0; apply Hnone', Hnone, Hp0|].
    intros k p0 Hp0.
    destruct (Hsome k p0 Hp0) as (p & Hp & Hsp & Hled).
    destruct (Hsome' k p Hp) as (q & Hq & Hsq & Hc & Hl).
    exists q. split; [exact Hq|].
    split; [exact (same_pool_trans _ _ _ Hsp Hsq)|].
    destruct (decide (pool_name_of w e = Some k)) as [Heq|Hneq].
    + rewrite (Hl Heq). destruct (hands_off e p); lia.
    + destruct (Hc Hneq) as (Ha & Hb & _). unfold ledger in *. lia.
Qed.

(** X22. Pools are for ever and never grow.  From a registry whose pools are
    stored under their own names, whatever acquisitions, time-outs and
    completions happen: no pool is added or removed, every pool keeps its
    name and size, and its [available + active] never exceeds what it
    started with; no step creates a slot. *)
Theorem pools_persist_and_never_gain_slots w0 w (k : string) :
  keyed (registry w0) ->
  reachable w0 w ->
  match pools (registry w0) !! k with
  | None => pools (registry w) !! k = None
  | Some p0 =>
      exists p, pools (registry w) !! k = Some p /\
        name p = name p0 /\ size p = size p0 /\
        available p + active p <= available p0 + active p0
  end.
Proof.
  intros Hkey Hr.
  destruct (evolved_reachable w0 w Hkey Hr) as (_ & Hnone & Hsome).
  destruct (pools (registry w0) !! k) as [p0|] eqn:Hp0.
  - destruct (Hsome k p0 Hp0) as (p & Hp & (Hn & Hs & _) & Hled).
    exists p. auto.
  - apply Hnone. exact Hp0.
Qed.

(** X23. The timer callback never takes anything out of a wait queue.  From a
    registry whose queues hold only functions pushed by [waitForResource]
    (an empty queue, as [createPool] makes it, is one), every queue of every
    reachable state holds only such functions, and the search for [resolve]
    in the callback finds nothing: the callback leaves the pool as it is. *)
Theorem timer_never_removes_a_waiter w0 w (k : string) (pool : Pool) (c : nat) :
  keyed (registry w0) ->
  queues_of_waiters (registry w0) ->
  reachable w0 w ->
  pools (registry w) !! k = Some pool ->
  Forall is_waiter (waiting pool) /\
  indexOf (waiting pool) (Resolve c) = -1 /\
  onTimer pool c = pool.
Proof.
  intros Hkey Hq0 Hr Hpool.
  destruct (evolved_reachable w0 w Hkey Hr) as (_ & Hnone & Hsome).
  assert (Hq : Forall is_waiter (waiting pool)).
  { destruct (pools (registry w0) !! k) as [p0|] eqn:Hp0.
    - destruct (Hsome k p0 Hp0) as (p & Hp & (_ & _ & Hw) & _).
      rewrite Hpool in Hp. injection Hp as <-. apply Hw. apply (Hq0 _ _ Hp0).
    - rewrite (Hnone k Hp0) in Hpool. discriminate. }
  split; [exact Hq|]. split.
  - apply indexOf_resolve_absent. exact Hq.
  - apply onTimer_removes_nothing. exact Hq.
Qed.

Lemma events_reachable (es : list (Event A E)) : forall w0 w1 w,
  reachable w0 w1 -> steps w1 es = Some w -> reachable w0 w.
Proof.
  induction es as [|e es IH]; intros w0 w1 w Hr Hs; cbn in Hs.
  - injection Hs as <-. exact Hr.
  - destruct (step w1 e) as [w2|] eqn:He; [|discriminate].
    apply (IH w0 w2 w); [|exact Hs].
    eapply reach_step; [exact Hr|exact He].
Qed.

(** An acquisition on a registered pool is running or queued once its
    first segment is over: it has not failed. *)
Lemma acquire_on_registered_pool w (c : nat) (poolName : string)
    (pool : Pool) (timeout : option Q) (now : Q) :
  calls w !! c = None ->
  pools (registry w) !! poolName = Some pool ->
  exists w' a,
    step w (Acquire c poolName timeout now) = Some w' /\
    calls w' !! c = Some a /\ on_pool a = poolName /\
    (phase a = Holding \/ phase a = Queued).
Proof.
  intros Hc Hp. unfold step. rewrite Hc, Hp.
  destruct (waitForResource (count_request pool) c) as [pool' [|]].
  - eexists. eexists. split; [reflexivity|]. cbn.
    rewrite lookup_insert_eq. split; [reflexivity|]. cbn. auto.
  - eexists. eexists. split; [reflexivity|]. cbn.
    rewrite lookup_insert_eq. split; [reflexivity|]. cbn. auto.
Qed.

End Worlds.

Lemma keyed_constructor (options : Options) : keyed (constructor options).
Proof. intros k pool Hp. cbn in Hp. rewrite lookup_empty in Hp. discriminate. Qed.

Lemma waiters_constructor (options : Options) :
  queues_of_waiters (constructor options).
Proof. intros k pool Hp. cbn in Hp. rewrite lookup_empty in Hp. discriminate. Qed.

Lemma keyed_createPool (rp : ResourcePool.t) (poolName : string)
    (requested : option Z) :
  keyed rp -> keyed (fst (createPool rp poolName requested)).
Proof.
  intros Hk. unfold createPool.
  destruct (pools rp !! poolName); cbn [fst]; [exact Hk|].
  apply keyed_store. exact Hk.
Qed.

Lemma waiters_createPool (rp : ResourcePool.t) (poolName : string)
    (requested : option Z) :
  queues_of_waiters rp ->
  queues_of_waiters (fst (createPool rp poolName requested)).
Proof.
  intros Hq. unfold createPool.
  destruct (pools rp !! poolName); cbn [fst]; [exact Hq|].
  intros k pool. rewrite store_lookup. cbn [name].
  destruct (decide (poolName = k)) as [_|_]; [|apply Hq].
  intros [= <-]. constructor.
Qed.

Lemma keyed_W (capacity : Z) : keyed (registry (W capacity)).
Proof. apply keyed_createPool, keyed_constructor. Qed.

Lemma waiters_W (capacity : Z) : queues_of_waiters (registry (W capacity)).
Proof. apply waiters_createPool, waiters_constructor. Qed.

Lemma reachable_after_events (es : list (Event unit string)) :
  reachable (W 1) (after_events es).
Proof.
  unfold after_events. destruct (steps (W 1) es) as [w|] eqn:Hs.
  - apply (events_reachable es (W 1) (W 1) w); [apply reach_here|exact Hs].
  - apply reach_here.
Qed.

Lemma keyed_after_events (es : list (Event unit string)) :
  keyed (registry (after_events es)).
Proof.
  apply (evolved_reachable (W 1) (after_events es) (keyed_W 1)
           (reachable_after_events es)).
Qed.

(** *** DatabaseConnectionPool *)

Import DatabaseConnectionPool.

Lemma getPoolForOperation_cases (operationType : string) :
  getPoolForOperation operationType = "read"%string \/
  getPoolForOperation operationType = "write"%string \/
  getPoolForOperation operationType = "report"%string.
Proof.
  unfold getPoolForOperation.
  repeat match goal with
    | |- context [(?a =? ?b)%string] => destruct (a =? b)%string
    end; auto.
Qed.

(** X24. The constructor registers exactly the pools [read] (20), [write] (5)
    and [report] (3), and [getPoolForOperation] only ever names one of
    them, whatever the operation type; so in every state reached from a new
    [DatabaseConnectionPool], [executeQuery] under a fresh acquisition
    finds its pool: the query is running or queued, never failed with
    [Pool ... does not exist]. *)
Theorem executeQuery_always_finds_its_pool :
  exists rp,
    DatabaseConnectionPool.constructor = Returned rp /\
    dom (pools rp) = {["read"%string; "write"%string; "report"%string]} /\
    size <$> pools rp !! "read"%string = Some 20 /\
    size <$> pools rp !! "write"%string = Some 5 /\
    size <$> pools rp !! "report"%string = Some 3 /\
    forall (A E : Type) (w : World A E) (c : nat)
           (operationType : option string) (now : Q),
      reachable {| registry := rp; calls := ∅ |} w ->
      calls w !! c = None ->
      exists w' a,
        step w (executeQuery c operationType now) = Some w' /\
        calls w' !! c = Some a /\
        (phase a = Holding \/ phase a = Queued) /\
        (on_pool a = "read"%string \/ on_pool a = "write"%string \/
         on_pool a = "report"%string).
Proof.
  set (rp0 := ResourcePool.constructor
                {| opt_defaultPoolSize := None; opt_maxPoolSize := None |}).
  set (rp := fst (createPool
                    (fst (createPool (fst (createPool rp0 "read" (Some 20)))
                            "write" (Some 5)))
                    "report" (Some 3))).
  exists rp.
  split; [reflexivity|].
  split; [vm_compute; reflexivity|].
  split; [reflexivity|]. split; [reflexivity|]. split; [reflexivity|].
  intros A E w c operationType now Hr Hc.
  assert (Hkey : keyed rp).
  { unfold rp. repeat apply keyed_createPool. apply keyed_constructor. }
  destruct (evolved_reachable (A := A) (E := E)
              {| registry := rp; calls := ∅ |} w Hkey Hr)
    as (_ & _ & Hsome).
  unfold executeQuery.
  set (ty := match operationType with Some ty => ty | None => "read"%string end).
  assert (Hreg : exists p0, pools rp !! getPoolForOperation ty = Some p0).
  { destruct (getPoolForOperation_cases ty) as [-> | [-> | ->]];
      eexists; reflexivity. }
  destruct Hreg as (p0 & Hp0).
  destruct (Hsome _ p0 Hp0) as (p & Hp & _).
  destruct (acquire_on_registered_pool w c _ p None now Hc Hp)
    as (w' & a & Hstep & Hca & Hon & Hph).
  exists w', a. split; [exact Hstep|]. split; [exact Hca|].
  split; [exact Hph|]. rewrite Hon. apply getPoolForOperation_cases.
Qed.

Lemma executeQuery_always_finds_its_pool_witness :
  exists w' a,
    step db_world (executeQuery 0 (Some "analytics"%string) 0) = Some w' /\
    calls w' !! 0%nat = Some a /\
    (phase a = Holding \/ phase a = Queued).
Proof.
  destruct executeQuery_always_finds_its_pool as (rp & Hrp & _ & _ & _ & _ & Hq).
  assert (Hw : db_world = {| registry := rp; calls := ∅ |}).
  { unfold db_world. rewrite Hrp. reflexivity. }
  destruct (Hq unit string db_world 0%nat (Some "analytics"%string) 0%Q)
    as (w' & a & Hstep & Hca & Hph & _).
  - rewrite Hw. apply reach_here.
  - reflexivity.
  - exists w', a. auto.
Defined.

(** *** The theorems above at concrete pools *)

Lemma slots_are_lost_only_on_handoff_witness :
  exists pool',
    pools (registry (after_events
                       (saturated ++ [Complete 0 (Returned tt) (20 # 1)])))
      !! "db"%string = Some pool' /\
    ledger pool' = 0.
Proof.
  edestruct (slots_are_lost_only_on_handoff
               (after_events saturated) (Complete 0 (Returned tt) (20 # 1))
               (after_events (saturated ++ [Complete 0 (Returned tt) (20 # 1)]))
               "db")
    as (pool' & Hp' & _ & _ & Hl & _).
  - apply keyed_after_events.
  - vm_compute. reflexivity.
  - vm_compute. reflexivity.
  - exists pool'. split; [exact Hp'|]. rewrite Hl by reflexivity. reflexivity.
Defined.

Lemma acquire_on_unknown_pool_witness :
  exists w',
    step (W 1) (Acquire 0 "cache" None 0) = Some w' /\
    registry w' = registry (W 1) /\
    result_of w' 0%nat = Some (Threw (Error "Pool cache does not exist"%string)).
Proof.
  destruct (acquire_on_unknown_pool (W 1) 0%nat "cache" None 0)
    as (w' & Hstep & Hreg & Hres & _).
  - reflexivity.
  - reflexivity.
  - exists w'. auto.
Defined.


Lemma release_calls_head_of_queue_witness :
  exists w' pool',
    step (after_events saturated) (Complete 0 (Returned tt) (20 # 1)) = Some w' /\
    phase <$> calls w' !! 1%nat = Some Holding /\
    pools (registry w') !! "db"%string = Some pool' /\
    waiting pool' = [].
Proof.
  edestruct (release_calls_head_of_queue (after_events saturated)
               0%nat 1%nat "db" saturated_db holder queued [] (Returned tt)
               (20 # 1))
    as (_ & w' & pool' & Hstep & Hc1 & Hp & Hq & _).
  - vm_compute. reflexivity.
  - reflexivity.
  - reflexivity.
  - vm_compute. reflexivity.
  - reflexivity.
  - reflexivity.
  - vm_compute. reflexivity.
  - reflexivity.
  - discriminate.
  - exists w', pool'. split; [exact Hstep|].
    split; [rewrite Hc1; reflexivity|]. split; [exact Hp|exact Hq].
Defined.

Lemma pools_persist_and_never_gain_slots_witness :
  exists p,
    pools (registry (after_events (saturated ++ [Timeout 1 (60 # 1)])))
      !! "db"%string = Some p /\
    size p = 1 /\ available p + active p <= 1.
Proof.
  pose proof (pools_persist_and_never_gain_slots (W 1)
                (after_events (saturated ++ [Timeout 1 (60 # 1)])) "db"
                (keyed_W 1) (reachable_after_events _)) as H.
  assert (Hp0 : pools (registry (W 1)) !! "db"%string = Some fresh_db)
    by reflexivity.
  rewrite Hp0 in H. destruct H as (p & Hp & _ & Hs & Hl).
  exists p. auto.
Defined.

Lemma timer_never_removes_a_waiter_witness :
  exists pool,
    pools (registry (after_events saturated)) !! "db"%string = Some pool /\
    waiting pool = [Waiter 1%nat] /\
    onTimer pool 1%nat = pool.
Proof.
  eexists. split; [vm_compute; reflexivity|]. split; [reflexivity|].
  eapply (timer_never_removes_a_waiter (W 1) (after_events saturated) "db").
  - apply keyed_W.
  - apply waiters_W.
  - apply reachable_after_events.
  - vm_compute. reflexivity.
Defined.

End ResourcePoolMore.
